(** * The wrap resolver of tekton-wrap-pipeline

    A shallow embedding of [pkg/resolver/wrap/resolver.go]: the resolver
    that rewrites a Tekton pipeline so that its tasks pass workspace
    content through image layers instead of a shared volume.

    Go values are modelled as follows.
    - [map[string]string] read-only (the resolver configuration): [gmap].
    - [map[string]string] written to (the request parameters): [gomap],
      a [gmap] or the nil map, because a write to a nil map panics.
    - [map[string]*v1beta1.TaskSpec]: a [gmap] from the task name to the
      current value of the pointee; every pointer stored in the map is
      reached through its key only, so an update through the pointer is an
      update of the entry.
    - [sets.String]: [gset string].
    - slices: lists, updated by index with stdpp's list insert.
    - a call that returns [(value, error)] or may panic: [outcome].

    The collaborators the source does not define are parameters: the
    cluster behind the client set, [GetMountPath] of the Tekton library,
    [yaml.Marshal], and the order in which Go ranges over a map.  The
    first part holds the definitions, the second the properties. *)

From Stdlib Require Import Ascii.
From Stdlib Require String.
From stdpp Require Import base option list gmap sets strings sorting.

(** ** Outcomes of Go calls *)

Inductive outcome (A : Type) : Type :=
| Ok (a : A)
| Err (err : string)
| Panic (msg : string).
Arguments Ok {A} a.
Arguments Err {A} err.
Arguments Panic {A} msg.

(** An error or a panic ends the call; [x ← c; k] is stdpp's notation for
    the bind. *)
#[global] Instance outcome_bind : MBind outcome := λ A B k c,
  match c with
  | Ok a => k a
  | Err e => Err e
  | Panic m => Panic m
  end.

Definition nilDeref : string := "invalid memory address or nil pointer dereference".
Definition nilMapWrite : string := "assignment to entry in nil map".
Definition indexOutOfRange : string := "index out of range".

(** ** Go maps that are written to *)

Inductive gomap : Type :=
| NilMap
| MapOf (m : gmap string string).

(** [v, ok := m[k]] *)
Definition goLookup (m : gomap) (k : string) : option string :=
  match m with
  | NilMap => None
  | MapOf t => t !! k
  end.

(** [m[k]]: the zero value when the key is absent. *)
Definition goIndex (m : gomap) (k : string) : string :=
  default EmptyString (goLookup m k).

(** [m[k] = v] *)
Definition goStore (m : gomap) (k v : string) : outcome gomap :=
  match m with
  | NilMap => Panic nilMapWrite
  | MapOf t => Ok (MapOf (<[k := v]> t))
  end.

(** [delete(m, k)], a no-op on the nil map. *)
Definition goDelete (m : gomap) (k : string) : gomap :=
  match m with
  | NilMap => NilMap
  | MapOf t => MapOf (delete k t)
  end.

(** ** The constants of the package *)

Definition PipelineRefParam : string := "pipelineref".
Definition WorkspacesParam : string := "workspaces".
Definition TargetParam : string := "target".
Definition WrapperParam : string := "wrapper".
Definition DefaultBaseImage : string :=
  "ghcr.io/openshift-pipelines/tekton-wrap-pipeline/base:latest".
Definition DefaultWrapperKey : string := "default-wrapper".

(** ** populateParamsWithDefaults (resolver.go, lines 234-258) *)

(** The local state of [populateParamsWithDefaults] when it reaches its
    [return]: the parameter map, with the default wrapper stored in it, and
    the slice [missingParams]. *)
Definition populateParams_locals (conf : gmap string string) (params : gomap)
    : outcome (gomap * list string) :=
  let missingParams : list string := [] in
  '(params, missingParams) ←
    match goLookup params WrapperParam with
    | Some _ => Ok (params, missingParams)
    | None =>
        match conf !! DefaultWrapperKey with
        | None => Ok (params, missingParams ++ [WrapperParam])
        | Some wrapperVal =>
            params ← goStore params WrapperParam wrapperVal;
            Ok (params, missingParams)
        end
    end;
  let missingParams :=
    if goLookup params PipelineRefParam is Some _ then missingParams
    else missingParams ++ [PipelineRefParam] in
  let missingParams :=
    if goLookup params TargetParam is Some _ then missingParams
    else missingParams ++ [TargetParam] in
  let missingParams :=
    if goLookup params WorkspacesParam is Some _ then missingParams
    else missingParams ++ [WorkspacesParam] in
  Ok (params, missingParams).

(** [return params, nil]: the slice is dropped and the error is always nil,
    so the only results are [Ok] and the panic of the store. *)
Definition populateParamsWithDefaults (conf : gmap string string) (params : gomap)
    : outcome gomap :=
  '(params, _) ← populateParams_locals conf params;
  Ok params.

(** ** The calls into Go's [strings] package

    Strings are byte strings.  [Split] and [ReplaceAll] are called with the
    separators [","] and ["{{workspace}}"] only; for an empty separator Go
    cuts at every UTF-8 sequence, which these definitions do byte by byte. *)

(** [splitFrom sep skip cur s]: the pieces of [s], where [cur] is the piece
    read so far and [skip] bytes of a separator found earlier remain. *)
Fixpoint splitFrom (sep : string) (skip : nat) (cur s : string) : list string :=
  match s with
  | EmptyString => [cur]
  | String c rest =>
      match skip with
      | S k => splitFrom sep k cur rest
      | O =>
          if String.prefix sep s
          then cur :: splitFrom sep (String.length sep - 1) EmptyString rest
          else splitFrom sep 0 (cur +:+ String c EmptyString) rest
      end
  end.

Fixpoint explode (s : string) : list string :=
  match s with
  | EmptyString => []
  | String c rest => String c EmptyString :: explode rest
  end.

(** [strings.Split(s, sep)] *)
Definition Split (s sep : string) : list string :=
  match sep with
  | EmptyString => explode s
  | _ => splitFrom sep 0 EmptyString s
  end.

(** [strings.Join(elems, sep)] *)
Fixpoint Join (elems : list string) (sep : string) : string :=
  match elems with
  | [] => EmptyString
  | [e] => e
  | e :: rest => e +:+ sep +:+ Join rest sep
  end.

Fixpoint replaceFrom (old new : string) (skip : nat) (s : string) : string :=
  match s with
  | EmptyString => EmptyString
  | String c rest =>
      match skip with
      | S k => replaceFrom old new k rest
      | O =>
          if String.prefix old s
          then new +:+ replaceFrom old new (String.length old - 1) rest
          else String c (replaceFrom old new 0 rest)
      end
  end.

Fixpoint intersperse (new s : string) : string :=
  match s with
  | EmptyString => new
  | String c rest => new +:+ String c (intersperse new rest)
  end.

(** [strings.ReplaceAll(s, old, new)] *)
Definition ReplaceAll (s old new : string) : string :=
  match old with
  | EmptyString => intersperse new s
  | _ => replaceFrom old new 0 s
  end.

Definition placeholder : string := "{{workspace}}".

(** [s] has an occurrence of [old]. *)
Definition occursIn (old s : string) : Prop := ∃ a b, s = a +:+ old +:+ b.

(** The occurrence of [old] after [pre] is the first one of [pre ++ old]. *)
Definition firstAfter (old pre : string) : Prop :=
  ∀ a b, pre +:+ old = a +:+ old +:+ b → a = pre.


(** ** The Tekton API types the resolver reads and writes

    The structs of [github.com/tektoncd/pipeline/pkg/apis/pipeline/v1beta1],
    with the fields the resolver touches and the neighbouring ones a
    pipeline document carries.  A Go pointer field that may be nil is an
    [option]. *)

Module Step.
Record t : Type := mk {
  Name : string;
  Image : string;
  Command : list string;
  Args : list string;
  WorkingDir : string;
  Script : string;
}.
End Step.

Module WorkspaceDeclaration.
Record t : Type := mk {
  Name : string;
  Description : string;
  MountPath : string;
  ReadOnly : bool;
  Optional : bool;
}.
(** [var w v1beta1.WorkspaceDeclaration] *)
Definition zero : t := mk EmptyString EmptyString EmptyString false false.
End WorkspaceDeclaration.

Module ParamSpec.
Record t : Type := mk {
  Name : string;
  Type_ : string;
  Description : string;
  Default : option string;
}.
End ParamSpec.

Module TaskSpec.
Record t : Type := mk {
  Params : list ParamSpec.t;
  Description : string;
  Steps : list Step.t;
  Workspaces : list WorkspaceDeclaration.t;
}.
(** [s.Steps = steps] *)
Definition setSteps (steps : list Step.t) (s : t) : t :=
  mk (Params s) (Description s) steps (Workspaces s).
End TaskSpec.

Module EmbeddedTask.
Record t : Type := mk {
  Labels : list (string * string);
  Annotations : list (string * string);
  TaskSpec : TaskSpec.t;
}.
(** [e.TaskSpec = s] *)
Definition setTaskSpec (s : TaskSpec.t) (e : t) : t :=
  mk (Labels e) (Annotations e) s.
End EmbeddedTask.

Module TaskRef.
Record t : Type := mk {
  Name : string;
  Kind : string;
}.
End TaskRef.

Module Param.
Record t : Type := mk {
  Name : string;
  Value : string;
}.
End Param.

Module WorkspacePipelineTaskBinding.
Record t : Type := mk {
  Name : string;
  Workspace : string;
  SubPath : string;
}.
End WorkspacePipelineTaskBinding.

Module PipelineTask.
Record t : Type := mk {
  Name : string;
  TaskRef : option TaskRef.t;
  TaskSpec : option EmbeddedTask.t;
  RunAfter : list string;
  Params : list Param.t;
  Workspaces : list WorkspacePipelineTaskBinding.t;
}.
(** [pt.TaskRef = ref] *)
Definition setTaskRef (ref : option TaskRef.t) (pt : t) : t :=
  mk (Name pt) ref (TaskSpec pt) (RunAfter pt) (Params pt) (Workspaces pt).
(** [pt.TaskSpec = e], the pointer field *)
Definition setTaskSpec (e : option EmbeddedTask.t) (pt : t) : t :=
  mk (Name pt) (TaskRef pt) e (RunAfter pt) (Params pt) (Workspaces pt).
End PipelineTask.

Module PipelineWorkspaceDeclaration.
Record t : Type := mk {
  Name : string;
  Description : string;
  Optional : bool;
}.
End PipelineWorkspaceDeclaration.

Module PipelineSpec.
Record t : Type := mk {
  Description : string;
  Tasks : list PipelineTask.t;
  Params : list ParamSpec.t;
  Workspaces : list PipelineWorkspaceDeclaration.t;
}.
Definition setTasks (tasks : list PipelineTask.t) (ps : t) : t :=
  mk (Description ps) tasks (Params ps) (Workspaces ps).
End PipelineSpec.

Module Pipeline.
Record t : Type := mk {
  Kind : string;
  APIVersion : string;
  Name : string;
  Namespace : string;
  Spec : PipelineSpec.t;
}.
End Pipeline.

Module Task.
Record t : Type := mk {
  Name : string;
  Namespace : string;
  Spec : TaskSpec.t;
}.
End Task.

(** ** The collaborators of the resolver *)

(** The [(value, error)] of a call into a client library. *)
Inductive result (A : Type) : Type :=
| Success (a : A)
| Failure (err : string).
Arguments Success {A} a.
Arguments Failure {A} err.

Definition call {A} (r : result A) : outcome A :=
  match r with
  | Success a => Ok a
  | Failure err => Err err
  end.

(** [clientset.Interface], as far as the resolver uses it:
    [TektonV1beta1().Pipelines(namespace).Get] and
    [TektonV1beta1().Tasks(namespace).Get], each by namespace and name. *)
Record ClientSet : Type := {
  GetPipeline : string → string → result Pipeline.t;
  GetTask : string → string → result Task.t;
}.

Record Resolver : Type := {
  pipelineClientSet : ClientSet;
}.

(** What the resolver reads from its [context.Context]:
    [framework.GetResolverConfigFromContext] and [common.RequestNamespace]. *)
Record Context : Type := {
  ResolverConfig : gmap string string;
  RequestNamespace : string;
}.

(** The request supplies a wrapper: as a parameter, or through the
    [default-wrapper] entry of the configuration. *)
Definition suppliesWrapper (ctx : Context) (params : gomap) : Prop :=
  is_Some (goLookup params WrapperParam)
  ∨ is_Some (ResolverConfig ctx !! DefaultWrapperKey).

Record ResolvedWrapperResource : Type := {
  Content : string;
  PipelineRef : string;
}.

Definition Data (r : ResolvedWrapperResource) : string := Content r.

Definition Annotations (r : ResolvedWrapperResource) : gmap string string :=
  {[ "PipelineRef" := PipelineRef r ]}.

(** ** [sets.String] *)

Definition NewString (items : list string) : gset string := list_to_set items.

Definition Has (s : gset string) (item : string) : bool := bool_decide (item ∈ s).

Definition HasAny (s : gset string) (items : list string) : bool :=
  existsb (Has s) items.

(** ** The generated scripts *)

Definition nl : string := String "010"%char EmptyString.
Definition dq : string := String "034"%char EmptyString.

Definition shebang : string := "#!/busybox/sh -e" +:+ nl.

(** The text one workspace adds to the import script. *)
Definition importLines (baseimage mountPath : string) : string :=
  "echo " +:+ dq +:+ "Extract workspace content from " +:+ baseimage
    +:+ " in " +:+ mountPath +:+ dq +:+ nl
  +:+ "crane export " +:+ baseimage +:+ " | tar -x -C " +:+ mountPath +:+ nl.

(** The text one workspace adds to the export script. *)
Definition exportLines (mountPath target baseimage : string) : string :=
  "echo " +:+ dq +:+ "Export workspace content from " +:+ mountPath
    +:+ " to " +:+ target +:+ dq +:+ nl
  +:+ "(cd " +:+ mountPath +:+ " && tar -f - -c . | crane append -b " +:+ baseimage
    +:+ " -t " +:+ target +:+ " -f -)" +:+ nl.

Definition craneImage : string := "gcr.io/go-containerregistry/crane:debug".

Definition importStep (script : string) : Step.t :=
  {| Step.Name := "import-workspace"; Step.Image := craneImage;
     Step.Command := []; Step.Args := [];
     Step.WorkingDir := "/"; Step.Script := script |}.

Definition exportStep (script : string) : Step.t :=
  {| Step.Name := "export-workspace"; Step.Image := craneImage;
     Step.Command := []; Step.Args := [];
     Step.WorkingDir := "/"; Step.Script := script |}.

(** [for _, d := range s.Workspaces { if d.Name == name { w = d } }]:
    the last declaration of that name, the zero value when there is none. *)
Definition findDeclaration (decls : list WorkspaceDeclaration.t) (name : string)
    : WorkspaceDeclaration.t :=
  foldl (λ w d, if String.eqb (WorkspaceDeclaration.Name d) name then d else w)
        WorkspaceDeclaration.zero decls.

(** The state of the loop over the tasks of [newPipeline]: the tasks, the
    task specs behind the pointers of [taskSpecs], and the variable
    [baseimage], which is assigned in the loop. *)
Record loopState : Type := {
  newTasks : list PipelineTask.t;
  taskSpecs : gmap string TaskSpec.t;
  baseimage : string;
}.

Section Wrap.

(** [GetMountPath], a method of [WorkspaceDeclaration] in the Tekton library. *)
Variable GetMountPath : WorkspaceDeclaration.t → string.

(** [yaml.Marshal] on a pipeline. *)
Variable yaml_Marshal : Pipeline.t → result string.

(** The order in which Go ranges over the map behind a [sets.String]; the
    language leaves it unspecified. *)
Variable rangeOrder : gset string → list string.

(** [s.List()]: the keys, sorted; [String.le] compares byte by byte, as Go
    compares strings. *)
Definition List (s : gset string) : list string :=
  merge_sort String.le (rangeOrder s).

(** [wtargetimages[w] = strings.ReplaceAll(target, "{{workspace}}", w)]
    for [w] in [names], in that order. *)
Definition targetImages (names : list string) (target : string) : gmap string string :=
  foldl (λ wtargetimages w, <[w := ReplaceAll target placeholder w]> wtargetimages)
        ∅ names.

(** [wtargetimages[w]], the zero value when the key is absent. *)
Definition imageOf (wtargetimages : gmap string string) (w : string) : string :=
  default EmptyString (wtargetimages !! w).

(** One iteration of [for _, pw := range t.Workspaces] in the import
    script; the pair is [baseimage] and the text written to [script]. *)
Definition importBody (workspaces : gset string) (wtargetimages : gmap string string)
    (s : TaskSpec.t) (acc : string * string) (pw : WorkspacePipelineTaskBinding.t)
    : string * string :=
  let '(baseimage, script) := acc in
  if Has workspaces (WorkspacePipelineTaskBinding.Workspace pw) then
    let baseimage := imageOf wtargetimages (WorkspacePipelineTaskBinding.Workspace pw) in
    let w := findDeclaration (TaskSpec.Workspaces s) (WorkspacePipelineTaskBinding.Name pw) in
    (baseimage, script +:+ importLines baseimage (GetMountPath w))
  else (baseimage, script).

(** The loop that builds the import script; it runs for [i != 0] only. *)
Definition importScript (workspaces : gset string) (wtargetimages : gmap string string)
    (s : TaskSpec.t) (uses : list WorkspacePipelineTaskBinding.t) (baseimage : string)
    : string * string :=
  foldl (importBody workspaces wtargetimages s) (baseimage, shebang) uses.

(** One iteration of the loop of the export script. *)
Definition exportBody (workspaces : gset string) (wtargetimages : gmap string string)
    (i : nat) (s : TaskSpec.t) (acc : string * string) (pw : WorkspacePipelineTaskBinding.t)
    : string * string :=
  let '(baseimage, script) := acc in
  if Has workspaces (WorkspacePipelineTaskBinding.Workspace pw) then
    let baseimage :=
      if bool_decide (i ≠ 0)
      then imageOf wtargetimages (WorkspacePipelineTaskBinding.Workspace pw)
      else baseimage in
    let w := findDeclaration (TaskSpec.Workspaces s) (WorkspacePipelineTaskBinding.Name pw) in
    (baseimage,
     script +:+ exportLines (GetMountPath w)
       (imageOf wtargetimages (WorkspacePipelineTaskBinding.Workspace pw))
       baseimage)
  else (baseimage, script).

(** The loop that builds the export script. *)
Definition exportScript (workspaces : gset string) (wtargetimages : gmap string string)
    (i : nat) (s : TaskSpec.t) (uses : list WorkspacePipelineTaskBinding.t) (baseimage : string)
    : string * string :=
  foldl (exportBody workspaces wtargetimages i s) (baseimage, shebang) uses.

(** The body of the loop [for i, t := range newPipeline.Spec.Tasks]
    (resolver.go, lines 128-189). *)
Definition wrapTask (workspaces : gset string) (wtargetimages : gmap string string)
    (i : nat) (t : PipelineTask.t) (st : loopState) : outcome loopState :=
  let taskWorkspaces :=
    map WorkspacePipelineTaskBinding.Workspace (PipelineTask.Workspaces t) in
  if negb (HasAny workspaces taskWorkspaces) then Ok st
  else
    match taskSpecs st !! PipelineTask.Name t with
    | None => Panic nilDeref
    | Some s =>
        let '(baseimage, s) :=
          if bool_decide (i ≠ 0) then
            let '(baseimage, script) :=
              importScript workspaces wtargetimages s (PipelineTask.Workspaces t)
                           (baseimage st) in
            (baseimage, TaskSpec.setSteps (importStep script :: TaskSpec.Steps s) s)
          else (baseimage st, s) in
        let '(baseimage, script) :=
          exportScript workspaces wtargetimages i s (PipelineTask.Workspaces t) baseimage in
        let s := TaskSpec.setSteps (TaskSpec.Steps s ++ [exportStep script]) s in
        let taskSpecs := <[PipelineTask.Name t := s]> (taskSpecs st) in
        match newTasks st !! i with
        | None => Panic indexOutOfRange
        | Some cur =>
            let cur := PipelineTask.setTaskRef None cur in
            match PipelineTask.TaskSpec cur with
            | None => Panic nilDeref
            | Some e =>
                let cur :=
                  PipelineTask.setTaskSpec (Some (EmbeddedTask.setTaskSpec s e)) cur in
                Ok {| newTasks := <[i := cur]> (newTasks st);
                      taskSpecs := taskSpecs;
                      baseimage := baseimage |}
            end
        end
    end.

(** [for i, t := range newPipeline.Spec.Tasks]: the indices are those of
    the slice when the loop starts, and [t] is read at each iteration. *)
Fixpoint wrapTasks (workspaces : gset string) (wtargetimages : gmap string string)
    (indices : list nat) (st : loopState) : outcome loopState :=
  match indices with
  | [] => Ok st
  | i :: rest =>
      match newTasks st !! i with
      | None => Panic indexOutOfRange
      | Some t =>
          st ← wrapTask workspaces wtargetimages i t st;
          wrapTasks workspaces wtargetimages rest st
      end
  end.

Definition getTaskSpec (r : Resolver) (ctx : Context) (name : string)
    : outcome TaskSpec.t :=
  let namespace := RequestNamespace ctx in
  t ← call (GetTask (pipelineClientSet r) namespace name);
  Ok (Task.Spec t).

(** The body of the loop of [resolveTaskSpecs] (resolver.go, lines
    209-219): the task spec the entry of [t] points to. *)
Definition resolveTaskSpec (r : Resolver) (ctx : Context) (t : PipelineTask.t)
    : outcome TaskSpec.t :=
  match PipelineTask.TaskRef t with
  | None =>
      match PipelineTask.TaskSpec t with
      | None => Panic nilDeref
      | Some e => Ok (EmbeddedTask.TaskSpec e)
      end
  | Some _ =>
      match getTaskSpec r ctx (PipelineTask.Name t) with
      | Err err =>
          Err ("couldn't fetch taskspec for " +:+ PipelineTask.Name t +:+ ": " +:+ err)
      | o => o
      end
  end.

Fixpoint resolveTaskSpecs_from (r : Resolver) (ctx : Context)
    (taskSpecs : gmap string TaskSpec.t) (tasks : list PipelineTask.t)
    : outcome (gmap string TaskSpec.t) :=
  match tasks with
  | [] => Ok taskSpecs
  | t :: rest =>
      taskSpec ← resolveTaskSpec r ctx t;
      resolveTaskSpecs_from r ctx (<[PipelineTask.Name t := taskSpec]> taskSpecs) rest
  end.

Definition resolveTaskSpecs (r : Resolver) (ctx : Context) (pipelineSpec : PipelineSpec.t)
    : outcome (gmap string TaskSpec.t) :=
  resolveTaskSpecs_from r ctx ∅ (PipelineSpec.Tasks pipelineSpec).

(** [Resolve] up to the call of [yaml.Marshal] (resolver.go, lines 96-193):
    the populated parameters and [newPipeline], the document that is
    serialised. *)
Definition Resolve_newPipeline (r : Resolver) (ctx : Context) (origParams : gomap)
    : outcome (gomap * Pipeline.t) :=
  let baseimage := DefaultBaseImage in
  let namespace := RequestNamespace ctx in
  params ← populateParamsWithDefaults (ResolverConfig ctx) origParams;
  pipeline ← call (GetPipeline (pipelineClientSet r) namespace
                               (goIndex params PipelineRefParam));
  let workspaces := NewString (Split (goIndex params WorkspacesParam) ",") in
  taskSpecs ← resolveTaskSpecs r ctx (Pipeline.Spec pipeline);
  let newPipeline := pipeline in
  let wtargetimages := targetImages (List workspaces) (goIndex params TargetParam) in
  st ← wrapTasks workspaces wtargetimages
         (seq 0 (length (PipelineSpec.Tasks (Pipeline.Spec newPipeline))))
         {| newTasks := PipelineSpec.Tasks (Pipeline.Spec newPipeline);
            taskSpecs := taskSpecs;
            baseimage := baseimage |};
  Ok (params,
      {| Pipeline.Kind := "Pipeline";
         Pipeline.APIVersion := "tekton.dev/v1beta1";
         Pipeline.Name := Pipeline.Name newPipeline;
         Pipeline.Namespace := Pipeline.Namespace newPipeline;
         Pipeline.Spec :=
           PipelineSpec.setTasks (newTasks st) (Pipeline.Spec newPipeline) |}).

Definition Resolve (r : Resolver) (ctx : Context) (origParams : gomap)
    : outcome ResolvedWrapperResource :=
  '(params, newPipeline) ← Resolve_newPipeline r ctx origParams;
  data ← call (yaml_Marshal newPipeline);
  Ok {| Content := data; PipelineRef := goIndex params PipelineRefParam |}.

(** [ValidateParams]: [Ok ()] is the nil error. *)
Definition ValidateParams (ctx : Context) (params : gomap) : outcome unit :=
  _ ← populateParamsWithDefaults (ResolverConfig ctx) params;
  Ok ().

(** ** What the loop does to one task, in closed form

    The definitions below restate the body of the loop for one task; the
    theorems relate them to [wrapTasks]. *)

(** [workspaces.HasAny(taskWorkspaces...)]: the task uses a requested
    workspace. *)
Definition usesAny (workspaces : gset string) (t : PipelineTask.t) : bool :=
  HasAny workspaces
    (map WorkspacePipelineTaskBinding.Workspace (PipelineTask.Workspaces t)).

(** The task spec [s] with the import step in front, for [i != 0], and the
    export step at the end; [b] is the value of [baseimage] on entry. *)
Definition wrappedSpec (workspaces : gset string) (wtargetimages : gmap string string)
    (i : nat) (s : TaskSpec.t) (uses : list WorkspacePipelineTaskBinding.t) (b : string)
    : TaskSpec.t :=
  TaskSpec.setSteps
    ((if bool_decide (i ≠ 0)
      then [importStep (importScript workspaces wtargetimages s uses b).2]
      else [])
     ++ TaskSpec.Steps s
     ++ [exportStep (exportScript workspaces wtargetimages i s uses b).2])
    s.

(** The uses of a task that name a requested workspace, in their order. *)
Definition requestedUses (workspaces : gset string)
    (uses : list WorkspacePipelineTaskBinding.t) : list WorkspacePipelineTaskBinding.t :=
  List.filter (λ pw, Has workspaces (WorkspacePipelineTaskBinding.Workspace pw)) uses.

(** The mount path of the declaration a use is bound to. *)
Definition mountPathOf (s : TaskSpec.t) (pw : WorkspacePipelineTaskBinding.t) : string :=
  GetMountPath (findDeclaration (TaskSpec.Workspaces s) (WorkspacePipelineTaskBinding.Name pw)).

(** The one import script of a task: the shebang, then the lines of each
    requested use, the image of its workspace being the source. *)
Definition combinedImport (workspaces : gset string) (wtargetimages : gmap string string)
    (s : TaskSpec.t) (uses : list WorkspacePipelineTaskBinding.t) : string :=
  shebang +:+
  foldr String.append EmptyString
    (map (λ pw, importLines
                  (imageOf wtargetimages (WorkspacePipelineTaskBinding.Workspace pw))
                  (mountPathOf s pw))
         (requestedUses workspaces uses)).

(** The one export script of a task: the shebang, then the lines of each
    requested use; [base pw] is the image the layer is appended to. *)
Definition combinedExport (workspaces : gset string) (wtargetimages : gmap string string)
    (base : WorkspacePipelineTaskBinding.t → string)
    (s : TaskSpec.t) (uses : list WorkspacePipelineTaskBinding.t) : string :=
  shebang +:+
  foldr String.append EmptyString
    (map (λ pw, exportLines
                  (mountPathOf s pw)
                  (imageOf wtargetimages (WorkspacePipelineTaskBinding.Workspace pw))
                  (base pw))
         (requestedUses workspaces uses)).

(** The base image of an export at an index other than 0: the image of the
    workspace itself. *)
Definition ownImage (wtargetimages : gmap string string)
    (pw : WorkspacePipelineTaskBinding.t) : string :=
  imageOf wtargetimages (WorkspacePipelineTaskBinding.Workspace pw).

(** The steps of [s] between one import step and one export step. *)
Definition importThenExport (workspaces : gset string) (wtargetimages : gmap string string)
    (s : TaskSpec.t) (uses : list WorkspacePipelineTaskBinding.t) : list Step.t :=
  importStep (combinedImport workspaces wtargetimages s uses)
  :: TaskSpec.Steps s
  ++ [exportStep (combinedExport workspaces wtargetimages (ownImage wtargetimages) s uses)].

(** The steps of [s] followed by one export step on the default base
    image. *)
Definition exportOnly (workspaces : gset string) (wtargetimages : gmap string string)
    (s : TaskSpec.t) (uses : list WorkspacePipelineTaskBinding.t) : list Step.t :=
  TaskSpec.Steps s
  ++ [exportStep (combinedExport workspaces wtargetimages (λ _, DefaultBaseImage) s uses)].

(** The set [workspaces] and the map [wtargetimages] of [Resolve]. *)
Definition requested (params : gomap) : gset string :=
  NewString (Split (goIndex params WorkspacesParam) ",").

Definition images (params : gomap) : gmap string string :=
  targetImages (List (requested params)) (goIndex params TargetParam).

(** The binding [t] without its reference and with [s] in its inline
    template [e]. *)
Definition inlined (s : TaskSpec.t) (e : EmbeddedTask.t) (t : PipelineTask.t)
    : PipelineTask.t :=
  PipelineTask.setTaskSpec (Some (EmbeddedTask.setTaskSpec s e))
                           (PipelineTask.setTaskRef None t).

End Wrap.

Definition tasksOf (p : Pipeline.t) : list PipelineTask.t :=
  PipelineSpec.Tasks (Pipeline.Spec p).

(** The state in which the loop over the tasks starts. *)
Definition initialState (pipeline : Pipeline.t) (specs : gmap string TaskSpec.t)
    : loopState :=
  {| newTasks := tasksOf pipeline; taskSpecs := specs; baseimage := DefaultBaseImage |}.

(** ** A cluster to run the resolver on

    The pipeline of the repository's example, two variants of it with a
    task bound by reference, and the collaborators the resolver needs. *)

Module Sample.

(** The mount path of a declaration whose name needs no cleaning: the
    path it declares, or the directory of its name under [/workspace]. *)
Definition mountPath (w : WorkspaceDeclaration.t) : string :=
  match WorkspaceDeclaration.MountPath w with
  | EmptyString => "/workspace/" +:+ WorkspaceDeclaration.Name w
  | path => path
  end.

Definition renderStep (st : Step.t) : string :=
  "    - name: " +:+ Step.Name st +:+ nl
  +:+ "      image: " +:+ Step.Image st +:+ nl
  +:+ "      script: " +:+ Step.Script st +:+ nl.

Definition renderTask (t : PipelineTask.t) : string :=
  "  - name: " +:+ PipelineTask.Name t +:+ nl
  +:+ match PipelineTask.TaskRef t with
      | Some ref => "    taskRef: " +:+ TaskRef.Name ref +:+ nl
      | None => EmptyString
      end
  +:+ match PipelineTask.TaskSpec t with
      | Some e =>
          "    taskSpec:" +:+ nl
          +:+ foldr String.append EmptyString
                (map renderStep (TaskSpec.Steps (EmbeddedTask.TaskSpec e)))
      | None => EmptyString
      end.

(** A serialiser that never fails. *)
Definition marshal (p : Pipeline.t) : result string :=
  Success ("apiVersion: " +:+ Pipeline.APIVersion p +:+ nl
           +:+ "kind: " +:+ Pipeline.Kind p +:+ nl
           +:+ "name: " +:+ Pipeline.Name p +:+ nl
           +:+ "tasks:" +:+ nl
           +:+ foldr String.append EmptyString
                 (map renderTask (PipelineSpec.Tasks (Pipeline.Spec p)))).

Definition declaration (name : string) : WorkspaceDeclaration.t :=
  WorkspaceDeclaration.mk name EmptyString EmptyString false false.

Definition binding (name workspace : string) : WorkspacePipelineTaskBinding.t :=
  WorkspacePipelineTaskBinding.mk name workspace EmptyString.

Definition cloneSpec : TaskSpec.t :=
  TaskSpec.mk
    [ParamSpec.mk "url" "string" EmptyString None] EmptyString
    [Step.mk "clone"
       "gcr.io/tekton-releases/github.com/tektoncd/pipeline/cmd/git-init:v0.21.0"
       [] [] EmptyString
       "/ko-app/git-init -url=$(params.url) -revision=main -path=$(workspaces.output.path)"]
    [declaration "output"].

Definition buildSpec : TaskSpec.t :=
  TaskSpec.mk [] EmptyString
    [Step.mk "build" "docker.io/library/golang:latest" [] []
       "$(workspaces.sources.path)" "pwd && ls -la && go build -v ./..."]
    [declaration "sources"].

Definition lintSpec : TaskSpec.t :=
  TaskSpec.mk [] EmptyString
    [Step.mk "lint" "docker.io/golangci/golangci-lint:latest" [] []
       EmptyString "golangci-lint --version"]
    [].

Definition grabSource : PipelineTask.t :=
  PipelineTask.mk "grab-source" None (Some (EmbeddedTask.mk [] [] cloneSpec))
    [] [Param.mk "url" "$(params.git-url)"] [binding "output" "sources"].

Definition build : PipelineTask.t :=
  PipelineTask.mk "build" None (Some (EmbeddedTask.mk [] [] buildSpec))
    ["grab-source"] [] [binding "sources" "sources"].

(** A task bound by reference that uses no workspace. *)
Definition lint : PipelineTask.t :=
  PipelineTask.mk "lint" (Some (TaskRef.mk "lint" "Task")) None
    ["grab-source"] [] [].

(** The task [build], bound by reference. *)
Definition buildByReference : PipelineTask.t :=
  PipelineTask.mk "build" (Some (TaskRef.mk "build" "Task")) None
    ["grab-source"] [] [binding "sources" "sources"].

Definition pipelineOf (name : string) (tasks : list PipelineTask.t) : Pipeline.t :=
  Pipeline.mk "Pipeline" "tekton.dev/v1beta1" name "default"
    (PipelineSpec.mk EmptyString tasks
       [ParamSpec.mk "git-url" "string" EmptyString
          (Some "https://github.com/vdemeester/buildkit-tekton")]
       [PipelineWorkspaceDeclaration.mk "sources" EmptyString false]).

(** [examples/simple-pipeline] *)
Definition simplePipeline : Pipeline.t :=
  pipelineOf "simple-pipeline" [grabSource; build].

Definition lintedPipeline : Pipeline.t :=
  pipelineOf "linted-pipeline" [grabSource; build; lint].

Definition referencePipeline : Pipeline.t :=
  pipelineOf "reference-pipeline" [grabSource; buildByReference].

Definition clients : ClientSet :=
  {| GetPipeline := λ namespace name,
       if negb (String.eqb namespace "default") then Failure "not found"
       else if String.eqb name "simple-pipeline" then Success simplePipeline
       else if String.eqb name "linted-pipeline" then Success lintedPipeline
       else if String.eqb name "reference-pipeline" then Success referencePipeline
       else Failure "not found";
     GetTask := λ namespace name,
       if negb (String.eqb namespace "default") then Failure "not found"
       else if String.eqb name "build" then Success (Task.mk "build" "default" buildSpec)
       else if String.eqb name "lint" then Success (Task.mk "lint" "default" lintSpec)
       else Failure "not found" |}.

Definition resolver : Resolver := {| pipelineClientSet := clients |}.

(** A request context whose resolver configuration is empty. *)
Definition ctx : Context :=
  {| ResolverConfig := ∅; RequestNamespace := "default" |}.

(** A request context whose configuration sets [default-wrapper]. *)
Definition ctxWithDefault : Context :=
  {| ResolverConfig := {[ "default-wrapper" := "registry.local/wrapper:latest" ]};
     RequestNamespace := "default" |}.

Definition target : string := "registry.local/run-{{workspace}}:latest".

(** The parameters of a request for the pipeline [ref]. *)
Definition paramsFor (ref : string) : gmap string string :=
  {[ "pipelineref" := ref; "workspaces" := "sources"; "target" := target ]}.

(** The document of a run, when there is one. *)
Definition documentOf (o : outcome (gomap * Pipeline.t)) : option Pipeline.t :=
  match o with
  | Ok (_, doc) => Some doc
  | _ => None
  end.

(** The document resolved for [linted-pipeline]. *)
Definition lintedDocument : Pipeline.t :=
  Eval vm_compute in
    default lintedPipeline
      (documentOf (Resolve_newPipeline mountPath elements resolver ctx
                                       (MapOf (paramsFor "linted-pipeline")))).

End Sample.

(** The loop can run on [st]: each task has an entry in [taskSpecs], and
    each task that uses a requested workspace has an inline template. *)
Definition ready (workspaces : gset string) (st : loopState) : Prop :=
  ∀ j t, newTasks st !! j = Some t →
    is_Some (taskSpecs st !! PipelineTask.Name t)
    ∧ (usesAny workspaces t = true → is_Some (PipelineTask.TaskSpec t)).

(** Every binding of the document is inline: no task carries a reference. *)
Definition allBindingsInline (doc : Pipeline.t) : Prop :=
  ∀ t, t ∈ tasksOf doc → PipelineTask.TaskRef t = None.

(** ** The identity of the resolver (resolver.go, lines 22-24 and 64-86) *)

Definition LabelValueWrapResolverType : string := "wrap".

(** [common.LabelKeyResolverType] of the Tekton library, the label the
    comment of [LabelValueWrapResolverType] names. *)
Definition LabelKeyResolverType : string := "resolution.tekton.dev/type".

Definition GetName : string := "wrapresolver".

Definition GetConfigName : string := "wrapresolver-config".

Definition GetSelector : gmap string string :=
  {[ LabelKeyResolverType := LabelValueWrapResolverType ]}.

(** [Initialize]: the resolver takes the pipeline client set that is
    injected in the context, here [injected], and returns the nil error.
    (The Kubernetes client set it also stores is never read.) *)
Definition Initialize (injected : ClientSet) (r : Resolver) : Resolver * outcome unit :=
  ({| pipelineClientSet := injected |}, Ok ()).

(** ** Declarations by name, in closed form *)

(** The declarations of [decls] that bear [name], in their order. *)
Definition declarationsNamed (decls : list WorkspaceDeclaration.t) (name : string)
    : list WorkspaceDeclaration.t :=
  List.filter (λ d, String.eqb (WorkspaceDeclaration.Name d) name) decls.

(** The message of [resolveTaskSpecs] for a task whose fetch failed. *)
Definition fetchError (name err : string) : string :=
  "couldn't fetch taskspec for " +:+ name +:+ ": " +:+ err.

(** ** More clusters: tasks that cannot be resolved, tasks of one name *)

Module Edge.

(** A task bound by reference to [kubectl-apply]; it uses no workspace. *)
Definition deploy : PipelineTask.t :=
  PipelineTask.mk "deploy" (Some (TaskRef.mk "kubectl-apply" "Task")) None
    ["grab-source"] [] [].

(** A task with neither a reference nor an inline template. *)
Definition bare : PipelineTask.t :=
  PipelineTask.mk "bare" None None ["grab-source"] [] [].

Definition testSpec : TaskSpec.t :=
  TaskSpec.mk [] EmptyString
    [Step.mk "test" "docker.io/library/golang:latest" [] []
       "$(workspaces.sources.path)" "go test ./..."]
    [Sample.declaration "sources"].

(** A second task that bears the name [build]. *)
Definition buildAgain : PipelineTask.t :=
  PipelineTask.mk "build" None (Some (EmbeddedTask.mk [] [] testSpec))
    ["build"] [] [Sample.binding "sources" "sources"].

Definition orphanPipeline : Pipeline.t :=
  Sample.pipelineOf "orphan-pipeline" [Sample.grabSource; deploy].

Definition barePipeline : Pipeline.t :=
  Sample.pipelineOf "bare-pipeline" [Sample.grabSource; bare].

Definition twinsPipeline : Pipeline.t :=
  Sample.pipelineOf "twins-pipeline" [Sample.grabSource; Sample.build; buildAgain].

(** The cluster has the task [kubectl-apply], and no task named [deploy]. *)
Definition clients : ClientSet :=
  {| GetPipeline := λ namespace name,
       if negb (String.eqb namespace "default") then Failure "not found"
       else if String.eqb name "orphan-pipeline" then Success orphanPipeline
       else if String.eqb name "bare-pipeline" then Success barePipeline
       else if String.eqb name "twins-pipeline" then Success twinsPipeline
       else Failure "not found";
     GetTask := λ namespace name,
       if negb (String.eqb namespace "default") then Failure "not found"
       else if String.eqb name "kubectl-apply"
            then Success (Task.mk "kubectl-apply" "default" Sample.lintSpec)
       else Failure "not found" |}.

Definition resolver : Resolver := {| pipelineClientSet := clients |}.

(** The document resolved for [twins-pipeline]. *)
Definition twinsDocument : Pipeline.t :=
  Eval vm_compute in
    default twinsPipeline
      (Sample.documentOf
         (Resolve_newPipeline Sample.mountPath elements resolver Sample.ctx
                              (MapOf (Sample.paramsFor "twins-pipeline")))).

(** The resource resolved for [simple-pipeline] on the sample cluster. *)
Definition simpleResource : ResolvedWrapperResource :=
  Eval vm_compute in
    match Resolve Sample.mountPath Sample.marshal elements Sample.resolver Sample.ctx
                  (MapOf (Sample.paramsFor "simple-pipeline")) with
    | Ok res => res
    | _ => {| Content := EmptyString; PipelineRef := EmptyString |}
    end.

(** The task specs gathered for [linted-pipeline] and for
    [reference-pipeline] on the sample cluster. *)
Definition lintedSpecs : gmap string TaskSpec.t :=
  Eval vm_compute in
    match resolveTaskSpecs Sample.resolver Sample.ctx (Pipeline.Spec Sample.lintedPipeline) with
    | Ok specs => specs
    | _ => ∅
    end.

Definition referenceSpecs : gmap string TaskSpec.t :=
  Eval vm_compute in
    match resolveTaskSpecs Sample.resolver Sample.ctx
            (Pipeline.Spec Sample.referencePipeline) with
    | Ok specs => specs
    | _ => ∅
    end.

(** A request for [linted-pipeline] that names a workspace no task uses. *)
Definition cacheParams : gmap string string :=
  {[ "pipelineref" := "linted-pipeline"; "workspaces" := "cache";
     "target" := Sample.target ]}.

End Edge.

(** * Properties *)

(** ** Parameters, strings and target images *)

Example Split_commas : Split "src,,cache" "," = ["src"; EmptyString; "cache"].
Proof. reflexivity. Qed.

Example Split_empty : Split EmptyString "," = [EmptyString].
Proof. reflexivity. Qed.

Example ReplaceAll_twice :
  ReplaceAll "r/{{workspace}}/{{workspace}}:v" placeholder "src" = "r/src/src:v".
Proof. reflexivity. Qed.

Lemma populate_cases conf params :
  populateParamsWithDefaults conf params =
    match goLookup params WrapperParam with
    | Some _ => Ok params
    | None =>
        match conf !! DefaultWrapperKey with
        | None => Ok params
        | Some v => goStore params WrapperParam v
        end
    end.
Proof.
  unfold populateParamsWithDefaults, populateParams_locals.
  destruct (goLookup params WrapperParam) as [v|]; [done|].
  destruct (conf !! DefaultWrapperKey) as [v|]; [|done].
  by destruct params.
Qed.

Lemma targetImages_from_lookup names target (m : gmap string string) w :
  foldl (λ acc x, <[x := ReplaceAll target placeholder x]> acc) m names !! w =
    if bool_decide (w ∈ names) then Some (ReplaceAll target placeholder w) else m !! w.
Proof.
  revert m. induction names as [|x names IH]; intros m; simpl.
  - done.
  - rewrite IH. destruct (decide (w = x)) as [->|Hne].
    + rewrite lookup_insert_eq. rewrite (bool_decide_true (x ∈ x :: names)) by set_solver.
      by case_bool_decide.
    + rewrite lookup_insert_ne by done.
      apply (f_equal (λ b : bool, if b then _ else _)), bool_decide_ext.
      rewrite elem_of_cons. tauto.
Qed.

Lemma targetImages_lookup names target w :
  targetImages names target !! w =
    if bool_decide (w ∈ names) then Some (ReplaceAll target placeholder w) else None.
Proof. unfold targetImages. by rewrite targetImages_from_lookup, lookup_empty. Qed.

Lemma elem_of_List rangeOrder (s : gset string) w :
  rangeOrder s ≡ₚ elements s → w ∈ List rangeOrder s ↔ w ∈ s.
Proof.
  intros Hp. unfold List. rewrite merge_sort_Permutation, Hp. apply elem_of_elements.
Qed.

Lemma append_nil_r s : s +:+ EmptyString = s.
Proof. induction s as [|c s IH]; [done|]. change (String c (s +:+ EmptyString) = String c s). by rewrite IH. Qed.

Lemma append_assoc (s1 s2 s3 : string) : (s1 +:+ s2) +:+ s3 = s1 +:+ s2 +:+ s3.
Proof.
  induction s1 as [|c s1 IH]; [done|].
  change (String c ((s1 +:+ s2) +:+ s3) = String c (s1 +:+ s2 +:+ s3)). by rewrite IH.
Qed.

Lemma splitFrom_String sep skip cur c rest :
  splitFrom sep skip cur (String c rest) =
    match skip with
    | S k => splitFrom sep k cur rest
    | O =>
        if String.prefix sep (String c rest)
        then cur :: splitFrom sep (String.length sep - 1) EmptyString rest
        else splitFrom sep 0 (cur +:+ String c EmptyString) rest
    end.
Proof. done. Qed.

Lemma replaceFrom_String old new skip c rest :
  replaceFrom old new skip (String c rest) =
    match skip with
    | S k => replaceFrom old new k rest
    | O =>
        if String.prefix old (String c rest)
        then new +:+ replaceFrom old new (String.length old - 1) rest
        else String c (replaceFrom old new 0 rest)
    end.
Proof. done. Qed.

Lemma splitFrom_cons sep skip cur s : ∃ x xs, splitFrom sep skip cur s = x :: xs.
Proof.
  revert skip cur. induction s as [|c rest IH]; intros skip cur; [simpl; eauto|].
  rewrite splitFrom_String. destruct skip; [|apply IH].
  destruct (String.prefix sep (String c rest)); [eauto | apply IH].
Qed.

Lemma Join_cons x y ys sep : Join (x :: y :: ys) sep = x +:+ sep +:+ Join (y :: ys) sep.
Proof. done. Qed.

Lemma Join_splitFrom sep new skip cur s :
  Join (splitFrom sep skip cur s) new = cur +:+ replaceFrom sep new skip s.
Proof.
  revert skip cur. induction s as [|c rest IH]; intros skip cur.
  - simpl. by rewrite append_nil_r.
  - rewrite splitFrom_String, replaceFrom_String.
    destruct skip as [|k]; [|apply IH].
    destruct (String.prefix sep (String c rest)).
    + specialize (IH (String.length sep - 1) EmptyString).
      destruct (splitFrom_cons sep (String.length sep - 1) EmptyString rest) as (x & xs & E).
      rewrite E in IH |- *. rewrite Join_cons, IH. done.
    + rewrite IH. by rewrite append_assoc.
Qed.

Lemma ReplaceAll_Join_Split s new :
  ReplaceAll s placeholder new = Join (Split s placeholder) new.
Proof. unfold ReplaceAll, Split. simpl. by rewrite Join_splitFrom. Qed.

(** ** The loop over the tasks *)

Section LoopFacts.
Variable GetMountPath : WorkspaceDeclaration.t → string.
Variables (workspaces : gset string) (wtargetimages : gmap string string).

Local Abbreviation importScript := (importScript GetMountPath workspaces wtargetimages).
Local Abbreviation exportScript := (exportScript GetMountPath workspaces wtargetimages).
Local Abbreviation wrapTask := (wrapTask GetMountPath workspaces wtargetimages).
Local Abbreviation wrapTasks := (wrapTasks GetMountPath workspaces wtargetimages).
Local Abbreviation wrappedSpec := (wrappedSpec GetMountPath workspaces wtargetimages).

Lemma importBody_base s uses b b' script :
  (foldl (importBody GetMountPath workspaces wtargetimages s) (b, script) uses).2
  = (foldl (importBody GetMountPath workspaces wtargetimages s) (b', script) uses).2.
Proof.
  revert b b' script. induction uses as [|pw uses IH]; intros b b' script; [done|].
  simpl. destruct (Has workspaces _); [done | apply IH].
Qed.

Lemma exportBody_base i s uses b b' script :
  i ≠ 0 →
  (foldl (exportBody GetMountPath workspaces wtargetimages i s) (b, script) uses).2
  = (foldl (exportBody GetMountPath workspaces wtargetimages i s) (b', script) uses).2.
Proof.
  intros Hi. revert b b' script.
  induction uses as [|pw uses IH]; intros b b' script; [done|].
  simpl. rewrite (bool_decide_true (i ≠ 0)) by done.
  destruct (Has workspaces _); [done | apply IH].
Qed.

Lemma wrappedSpec_base i s uses b b' :
  i ≠ 0 → wrappedSpec i s uses b = wrappedSpec i s uses b'.
Proof.
  intros Hi. unfold wrappedSpec, importScript, exportScript.
  by rewrite (importBody_base s uses b b'), (exportBody_base i s uses b b').
Qed.

Lemma wrapTask_skip i t st :
  usesAny workspaces t = false → wrapTask i t st = Ok st.
Proof. unfold usesAny, wrapTask. by intros ->. Qed.

Lemma wrapTask_Ok i t st st' :
  usesAny workspaces t = true →
  wrapTask i t st = Ok st' →
  ∃ s cur e,
    taskSpecs st !! PipelineTask.Name t = Some s
    ∧ newTasks st !! i = Some cur
    ∧ PipelineTask.TaskSpec cur = Some e
    ∧ newTasks st' =
        <[i := inlined (wrappedSpec i s (PipelineTask.Workspaces t) (baseimage st)) e cur]>
          (newTasks st)
    ∧ taskSpecs st' =
        <[PipelineTask.Name t := wrappedSpec i s (PipelineTask.Workspaces t) (baseimage st)]>
          (taskSpecs st).
Proof.
  unfold usesAny, wrapTask. intros -> H. simpl in H.
  destruct (taskSpecs st !! PipelineTask.Name t) as [s|] eqn:Hs; [|done].
  exists s. unfold wrappedSpec.
  destruct (decide (i = 0)) as [Hi|Hi].
  - rewrite (bool_decide_false (i ≠ 0)) in H |- * by (intros ?; done).
    destruct (exportScript i s (PipelineTask.Workspaces t) (baseimage st))
      as [b1 script1] eqn:Hexp.
    destruct (newTasks st !! i) as [cur|]; [|done]. simpl in H.
    destruct (PipelineTask.TaskSpec cur) as [e|] eqn:He; [|done].
    injection H as <-. by exists cur, e.
  - rewrite (bool_decide_true (i ≠ 0)) in H |- * by done.
    destruct (importScript s (PipelineTask.Workspaces t) (baseimage st))
      as [b0 script0] eqn:Himp.
    assert (exportScript i
              (TaskSpec.setSteps (importStep script0 :: TaskSpec.Steps s) s)
              (PipelineTask.Workspaces t) b0
            = exportScript i s (PipelineTask.Workspaces t) b0) as Hset by done.
    rewrite Hset in H.
    destruct (exportScript i s (PipelineTask.Workspaces t) b0)
      as [b1 script1] eqn:Hexp.
    destruct (newTasks st !! i) as [cur|]; [|done]. simpl in H.
    destruct (PipelineTask.TaskSpec cur) as [e|] eqn:He; [|done].
    injection H as <-. exists cur, e.
    assert ((exportScript i s (PipelineTask.Workspaces t) (baseimage st)).2 = script1) as ->.
    { unfold exportScript in *.
      rewrite (exportBody_base i s _ (baseimage st) b0) by done. by rewrite Hexp. }
    done.
Qed.

Lemma wrapTasks_cons i rest st :
  wrapTasks (i :: rest) st =
    match newTasks st !! i with
    | None => Panic indexOutOfRange
    | Some t => st ← wrapTask i t st; wrapTasks rest st
    end.
Proof. done. Qed.

Lemma wrapTask_length i t st st' :
  wrapTask i t st = Ok st' → length (newTasks st') = length (newTasks st).
Proof.
  intros H. destruct (usesAny workspaces t) eqn:Hu.
  - destruct (wrapTask_Ok _ _ _ _ Hu H) as (s & cur & e & _ & _ & _ & -> & _).
    apply length_insert.
  - rewrite wrapTask_skip in H by done. by injection H as <-.
Qed.

Lemma wrapTask_other i t st st' j :
  wrapTask i t st = Ok st' → j ≠ i → newTasks st' !! j = newTasks st !! j.
Proof.
  intros H Hj. destruct (usesAny workspaces t) eqn:Hu.
  - destruct (wrapTask_Ok _ _ _ _ Hu H) as (s & cur & e & _ & _ & _ & -> & _).
    by apply list_lookup_insert_ne.
  - rewrite wrapTask_skip in H by done. by injection H as <-.
Qed.

Lemma wrapTasks_frame indices st st' :
  wrapTasks indices st = Ok st' →
  length (newTasks st') = length (newTasks st)
  ∧ ∀ j, j ∉ indices → newTasks st' !! j = newTasks st !! j.
Proof.
  revert st. induction indices as [|i rest IH]; intros st H.
  - by injection H as <-.
  - rewrite wrapTasks_cons in H.
    destruct (newTasks st !! i) as [t|]; [|done].
    destruct (wrapTask i t st) as [st1| |] eqn:H1; [|done..].
    destruct (IH _ H) as [Hlen Hframe]. split.
    + by rewrite Hlen, (wrapTask_length _ _ _ _ H1).
    + intros j Hj. apply not_elem_of_cons in Hj as [Hji Hj].
      rewrite Hframe by done. by apply (wrapTask_other _ _ _ _ _ H1).
Qed.

Lemma wrapTask_names i t st st' j :
  wrapTask i t st = Ok st' →
  PipelineTask.Name <$> newTasks st' !! j = PipelineTask.Name <$> newTasks st !! j.
Proof.
  intros H. destruct (usesAny workspaces t) eqn:Hu.
  - destruct (wrapTask_Ok _ _ _ _ Hu H) as (s & cur & e & _ & Hcur & _ & -> & _).
    destruct (decide (j = i)) as [->|Hne].
    + rewrite list_lookup_insert_eq by (by eapply lookup_lt_Some). by rewrite Hcur.
    + by rewrite list_lookup_insert_ne.
  - rewrite wrapTask_skip in H by done. by injection H as <-.
Qed.

Lemma wrapTask_specs i t st st' name :
  wrapTask i t st = Ok st' → PipelineTask.Name t ≠ name →
  taskSpecs st' !! name = taskSpecs st !! name.
Proof.
  intros H Hne. destruct (usesAny workspaces t) eqn:Hu.
  - destruct (wrapTask_Ok _ _ _ _ Hu H) as (s & cur & e & _ & _ & _ & _ & ->).
    by rewrite lookup_insert_ne.
  - rewrite wrapTask_skip in H by done. by injection H as <-.
Qed.

Lemma wrapTasks_names indices st st' j :
  wrapTasks indices st = Ok st' →
  PipelineTask.Name <$> newTasks st' !! j = PipelineTask.Name <$> newTasks st !! j.
Proof.
  revert st. induction indices as [|i rest IH]; intros st H.
  - by injection H as <-.
  - rewrite wrapTasks_cons in H.
    destruct (newTasks st !! i) as [t|]; [|done].
    destruct (wrapTask i t st) as [st1| |] eqn:H1; [|done..].
    rewrite (IH _ H). by apply (wrapTask_names _ _ _ _ _ H1).
Qed.

(** The entry of a name that no visited task bears is left as it was. *)
Lemma wrapTasks_specs indices st st' name :
  wrapTasks indices st = Ok st' →
  (∀ i t, i ∈ indices → newTasks st !! i = Some t → PipelineTask.Name t ≠ name) →
  taskSpecs st' !! name = taskSpecs st !! name.
Proof.
  revert st. induction indices as [|i rest IH]; intros st H Hnames.
  - by injection H as <-.
  - rewrite wrapTasks_cons in H.
    destruct (newTasks st !! i) as [t|] eqn:Ht; [|done].
    destruct (wrapTask i t st) as [st1| |] eqn:H1; [|done..].
    rewrite (IH _ H).
    + apply (wrapTask_specs _ _ _ _ _ H1). apply (Hnames i); [left|done].
    + intros i' t' Hi' Ht'.
      pose proof (wrapTask_names _ _ _ _ i' H1) as Hn. rewrite Ht' in Hn.
      destruct (newTasks st !! i') as [t0|] eqn:Ht0; [|done].
      injection Hn as Hn. rewrite Hn. apply (Hnames i'); [by right|done].
Qed.

Lemma wrapTasks_app l1 l2 st :
  wrapTasks (l1 ++ l2) st = st1 ← wrapTasks l1 st; wrapTasks l2 st1.
Proof.
  revert st. induction l1 as [|i l1 IH]; intros st; [done|].
  rewrite <-app_comm_cons, !wrapTasks_cons.
  destruct (newTasks st !! i) as [t|]; [|done].
  destruct (wrapTask i t st) as [st1| |]; [|done..]. apply IH.
Qed.

(** The run of the loop cut at the iteration of index [j]. *)
Lemma wrapTasks_at n st st' j :
  wrapTasks (seq 0 n) st = Ok st' → j < n →
  ∃ stj stj' t,
    wrapTasks (seq 0 j) st = Ok stj
    ∧ newTasks stj !! j = Some t
    ∧ wrapTask j t stj = Ok stj'
    ∧ wrapTasks (seq (S j) (n - S j)) stj' = Ok st'.
Proof.
  intros H Hj.
  replace n with (j + S (n - S j)) in H by lia.
  rewrite seq_app, wrapTasks_app in H. simpl in H.
  destruct (wrapTasks (seq 0 j) st) as [stj| |] eqn:Hpre; [|done..].
  change (wrapTasks (j :: seq (S j) (n - S j)) stj = Ok st') in H.
  rewrite wrapTasks_cons in H.
  destruct (newTasks stj !! j) as [t|] eqn:Ht; [|done].
  destruct (wrapTask j t stj) as [stj'| |] eqn:Hbody; [|done..].
  by exists stj, stj', t.
Qed.

(** The task at index [j] when the loop is over: what the body made of the
    task that was there when the loop began. *)
Lemma wrapTasks_lookup n st st' j t :
  wrapTasks (seq 0 n) st = Ok st' → j < n → newTasks st !! j = Some t →
  ∃ stj stj',
    wrapTasks (seq 0 j) st = Ok stj
    ∧ wrapTask j t stj = Ok stj'
    ∧ newTasks stj !! j = Some t
    ∧ newTasks st' !! j = newTasks stj' !! j.
Proof.
  intros H Hj Ht.
  destruct (wrapTasks_at _ _ _ _ H Hj) as (stj & stj' & t' & Hpre & Ht' & Hbody & Hpost).
  destruct (wrapTasks_frame _ _ _ Hpre) as [_ Hf1].
  destruct (wrapTasks_frame _ _ _ Hpost) as [_ Hf2].
  rewrite Hf1, Ht in Ht' by (rewrite elem_of_seq; lia). injection Ht' as <-.
  exists stj, stj'. split_and!; [done..| |].
  - rewrite Hf1 by (rewrite elem_of_seq; lia). done.
  - apply Hf2. rewrite elem_of_seq. lia.
Qed.

Lemma importBody_closed s uses b script :
  (foldl (importBody GetMountPath workspaces wtargetimages s) (b, script) uses).2
  = script +:+
    foldr String.append EmptyString
      (map (λ pw, importLines
                    (imageOf wtargetimages (WorkspacePipelineTaskBinding.Workspace pw))
                    (mountPathOf GetMountPath s pw))
           (requestedUses workspaces uses)).
Proof.
  revert b script. induction uses as [|pw uses IH]; intros b script.
  - simpl. by rewrite append_nil_r.
  - simpl. destruct (Has workspaces _); [|apply IH].
    rewrite IH. simpl. by rewrite append_assoc.
Qed.

Lemma exportBody_closed i s uses b script :
  (foldl (exportBody GetMountPath workspaces wtargetimages i s) (b, script) uses).2
  = script +:+
    foldr String.append EmptyString
      (map (λ pw, exportLines
                    (mountPathOf GetMountPath s pw)
                    (imageOf wtargetimages (WorkspacePipelineTaskBinding.Workspace pw))
                    (if bool_decide (i ≠ 0) then ownImage wtargetimages pw else b))
           (requestedUses workspaces uses)).
Proof.
  revert b script. induction uses as [|pw uses IH]; intros b script.
  - simpl. by rewrite append_nil_r.
  - simpl. destruct (Has workspaces _); [|apply IH].
    rewrite IH. simpl. rewrite append_assoc.
    by destruct (bool_decide (i ≠ 0)).
Qed.

(** The wrapped task spec at an index other than 0. *)
Lemma wrappedSpec_later i s uses b :
  i ≠ 0 →
  wrappedSpec i s uses b =
    TaskSpec.setSteps
      (importStep (combinedImport GetMountPath workspaces wtargetimages s uses)
       :: TaskSpec.Steps s
       ++ [exportStep (combinedExport GetMountPath workspaces wtargetimages
                         (ownImage wtargetimages) s uses)])
      s.
Proof.
  intros Hi. unfold wrappedSpec, importScript, exportScript.
  rewrite importBody_closed, exportBody_closed.
  by rewrite (bool_decide_true (i ≠ 0)).
Qed.

(** The wrapped task spec at index 0. *)
Lemma wrappedSpec_first s uses b :
  wrappedSpec 0 s uses b =
    TaskSpec.setSteps
      (TaskSpec.Steps s
       ++ [exportStep (combinedExport GetMountPath workspaces wtargetimages
                         (λ _, b) s uses)])
      s.
Proof.
  unfold wrappedSpec, exportScript.
  by rewrite exportBody_closed.
Qed.

(** The loop returns no error: it ends with a state or it panics. *)
Lemma wrapTask_not_Err i t st err : wrapTask i t st ≠ Err err.
Proof.
  unfold wrapTask. destruct (negb _); [done|].
  destruct (taskSpecs st !! PipelineTask.Name t) as [s|]; [|done].
  destruct (bool_decide (i ≠ 0)).
  - destruct (importScript _ _ _) as [b0 script0].
    destruct (exportScript _ _ _ _) as [b1 script1].
    destruct (newTasks st !! i) as [cur|]; [|done]. simpl.
    by destruct (PipelineTask.TaskSpec cur).
  - destruct (exportScript _ _ _ _) as [b1 script1].
    destruct (newTasks st !! i) as [cur|]; [|done]. simpl.
    by destruct (PipelineTask.TaskSpec cur).
Qed.

Lemma wrapTasks_not_Err indices st err : wrapTasks indices st ≠ Err err.
Proof.
  revert st. induction indices as [|i rest IH]; intros st; [done|].
  rewrite wrapTasks_cons. destruct (newTasks st !! i) as [t|]; [|done].
  destruct (wrapTask i t st) as [st1| |] eqn:H1; simpl; [apply IH| |done].
  by apply wrapTask_not_Err in H1.
Qed.

(** The body of the loop succeeds on the task it finds at index [i] when
    the task has an entry and, if it is to be wrapped, an inline template. *)
Lemma wrapTask_total i t st :
  ready workspaces st → newTasks st !! i = Some t →
  ∃ st', wrapTask i t st = Ok st' ∧ ready workspaces st'.
Proof.
  intros Hready Ht. destruct (usesAny workspaces t) eqn:Hu.
  2:{ exists st. by rewrite wrapTask_skip. }
  destruct (Hready _ _ Ht) as [[s Hs] He]. destruct (He Hu) as [e He'].
  assert (∃ st', wrapTask i t st = Ok st') as [st' H].
  { unfold wrapTask. unfold usesAny in Hu. rewrite Hu, Hs. simpl.
    destruct (bool_decide (i ≠ 0)).
    - destruct (importScript _ _ _) as [b0 script0].
      destruct (exportScript _ _ _ _) as [b1 script1].
      rewrite Ht. simpl. rewrite He'. eauto.
    - destruct (exportScript _ _ _ _) as [b1 script1].
      rewrite Ht. simpl. rewrite He'. eauto. }
  exists st'. split; [done|].
  destruct (wrapTask_Ok _ _ _ _ Hu H) as (s0 & cur & e0 & _ & Hcur & _ & Hnew & Hspecs).
  rewrite Ht in Hcur. injection Hcur as <-.
  intros j t' Ht'. rewrite Hnew in Ht'. rewrite Hspecs.
  destruct (decide (j = i)) as [->|Hne].
  - rewrite list_lookup_insert_eq in Ht' by (by eapply lookup_lt_Some).
    injection Ht' as <-. simpl. rewrite lookup_insert_eq. split; eauto.
  - rewrite list_lookup_insert_ne in Ht' by done.
    destruct (Hready _ _ Ht') as [Hs' He'']. split; [|done].
    rewrite lookup_insert. case_decide; eauto.
Qed.

Lemma wrapTasks_total indices st :
  ready workspaces st → (∀ i, i ∈ indices → i < length (newTasks st)) →
  ∃ st', wrapTasks indices st = Ok st'.
Proof.
  revert st. induction indices as [|i rest IH]; intros st Hready Hlt; [by exists st|].
  rewrite wrapTasks_cons.
  destruct (lookup_lt_is_Some_2 (newTasks st) i) as [t Ht]; [apply Hlt; by left|].
  rewrite Ht. destruct (wrapTask_total i t st Hready Ht) as (st1 & H1 & Hready1).
  rewrite H1. simpl. apply IH; [done|].
  intros j Hj. rewrite (wrapTask_length _ _ _ _ H1). apply Hlt. by right.
Qed.

End LoopFacts.

(** ** The task specs behind [taskSpecs] *)

Section ResolveTaskSpecs.
Variables (r : Resolver) (ctx : Context).

Lemma resolveTaskSpecs_from_other tasks m specs name :
  resolveTaskSpecs_from r ctx m tasks = Ok specs →
  (∀ t, t ∈ tasks → PipelineTask.Name t ≠ name) →
  specs !! name = m !! name.
Proof.
  revert m. induction tasks as [|t tasks IH]; intros m H Hname.
  - by injection H as <-.
  - simpl in H. destruct (resolveTaskSpec r ctx t) as [s| |]; [|done..].
    simpl in H. rewrite (IH _ H).
    + apply lookup_insert_ne, Hname. by left.
    + intros t' Ht'. apply Hname. by right.
Qed.

(** The entry of a task is its own task spec when no later task bears its
    name. *)
Lemma resolveTaskSpecs_from_own pre t post m specs :
  resolveTaskSpecs_from r ctx m (pre ++ t :: post) = Ok specs →
  (∀ t', t' ∈ post → PipelineTask.Name t' ≠ PipelineTask.Name t) →
  ∃ s, resolveTaskSpec r ctx t = Ok s ∧ specs !! PipelineTask.Name t = Some s.
Proof.
  revert m. induction pre as [|x pre IH]; intros m H Hpost.
  - simpl in H. destruct (resolveTaskSpec r ctx t) as [s| |]; [|done..].
    simpl in H. exists s. split; [done|].
    rewrite (resolveTaskSpecs_from_other _ _ _ _ H Hpost). apply lookup_insert_eq.
  - simpl in H. destruct (resolveTaskSpec r ctx x) as [sx| |]; [|done..].
    simpl in H. by apply (IH _ H).
Qed.

Lemma resolveTaskSpecs_own pipelineSpec specs i t :
  resolveTaskSpecs r ctx pipelineSpec = Ok specs →
  PipelineSpec.Tasks pipelineSpec !! i = Some t →
  (∀ j t', i < j → PipelineSpec.Tasks pipelineSpec !! j = Some t' →
           PipelineTask.Name t' ≠ PipelineTask.Name t) →
  ∃ s, resolveTaskSpec r ctx t = Ok s ∧ specs !! PipelineTask.Name t = Some s.
Proof.
  unfold resolveTaskSpecs. intros H Hi Hlater.
  rewrite <-(take_drop_middle _ _ _ Hi) in H.
  apply (resolveTaskSpecs_from_own _ _ _ _ _ H).
  intros t' Ht'. apply list_elem_of_lookup in Ht' as [k Hk].
  rewrite lookup_drop in Hk. apply (Hlater (S i + k)); [lia|done].
Qed.

Lemma NoDup_names_lookup (tasks : list PipelineTask.t) i j t t' :
  NoDup (PipelineTask.Name <$> tasks) →
  tasks !! i = Some t → tasks !! j = Some t' → i ≠ j →
  PipelineTask.Name t' ≠ PipelineTask.Name t.
Proof.
  intros Hnd Hi Hj Hij Heq. apply Hij.
  apply (NoDup_lookup _ i j (PipelineTask.Name t) Hnd).
  - by rewrite list_lookup_fmap, Hi.
  - rewrite list_lookup_fmap, Hj. simpl. by rewrite Heq.
Qed.

(** When the task spec of every task resolves, [resolveTaskSpecs_from]
    returns a map with an entry for each of the names. *)
Lemma resolveTaskSpecs_from_total tasks m :
  (∀ t, t ∈ tasks → ∃ s, resolveTaskSpec r ctx t = Ok s) →
  ∃ specs,
    resolveTaskSpecs_from r ctx m tasks = Ok specs
    ∧ (∀ name, is_Some (m !! name) → is_Some (specs !! name))
    ∧ ∀ t, t ∈ tasks → is_Some (specs !! PipelineTask.Name t).
Proof.
  revert m. induction tasks as [|t tasks IH]; intros m Hall.
  - exists m. split_and!; [done..|]. by intros t Ht%elem_of_nil.
  - destruct (Hall t) as [s Hs]; [by left|].
    destruct (IH (<[PipelineTask.Name t := s]> m)) as (specs & H & Hm & Htasks).
    { intros t' Ht'. apply Hall. by right. }
    exists specs. simpl. rewrite Hs. simpl. split_and!; [done| |].
    + intros name Hname. apply Hm. rewrite lookup_insert. case_decide; eauto.
    + intros t' [->|Ht']%elem_of_cons; [|by apply Htasks].
      apply Hm. rewrite lookup_insert_eq. eauto.
Qed.

End ResolveTaskSpecs.

(** ** The document [Resolve] serialises *)

Section Document.
Variable GetMountPath : WorkspaceDeclaration.t → string.
Variable rangeOrder : gset string → list string.
Variables (r : Resolver) (ctx : Context).

Local Abbreviation Resolve_newPipeline := (Resolve_newPipeline GetMountPath rangeOrder r ctx).
Local Abbreviation images := (images rangeOrder).
Local Abbreviation wrapTasks := (wrapTasks GetMountPath).
Local Abbreviation wrapTask := (wrapTask GetMountPath).
Local Abbreviation wrappedSpec := (wrappedSpec GetMountPath).

Lemma Resolve_newPipeline_unfold origParams :
  Resolve_newPipeline origParams =
    params ← populateParamsWithDefaults (ResolverConfig ctx) origParams;
    pipeline ← call (GetPipeline (pipelineClientSet r) (RequestNamespace ctx)
                                 (goIndex params PipelineRefParam));
    specs ← resolveTaskSpecs r ctx (Pipeline.Spec pipeline);
    st ← wrapTasks (requested params) (images params)
                   (seq 0 (length (tasksOf pipeline))) (initialState pipeline specs);
    Ok (params,
        {| Pipeline.Kind := "Pipeline";
           Pipeline.APIVersion := "tekton.dev/v1beta1";
           Pipeline.Name := Pipeline.Name pipeline;
           Pipeline.Namespace := Pipeline.Namespace pipeline;
           Pipeline.Spec := PipelineSpec.setTasks (newTasks st) (Pipeline.Spec pipeline) |}).
Proof. done. Qed.

Lemma Resolve_newPipeline_Ok origParams params doc :
  Resolve_newPipeline origParams = Ok (params, doc) →
  ∃ pipeline specs st,
    populateParamsWithDefaults (ResolverConfig ctx) origParams = Ok params
    ∧ GetPipeline (pipelineClientSet r) (RequestNamespace ctx)
                  (goIndex params PipelineRefParam) = Success pipeline
    ∧ resolveTaskSpecs r ctx (Pipeline.Spec pipeline) = Ok specs
    ∧ wrapTasks (requested params) (images params)
                (seq 0 (length (tasksOf pipeline))) (initialState pipeline specs) = Ok st
    ∧ tasksOf doc = newTasks st
    ∧ Pipeline.Name doc = Pipeline.Name pipeline.
Proof.
  unfold Resolve_newPipeline. intros H.
  destruct (populateParamsWithDefaults _ _) as [p| |]; [|done..]. simpl in H.
  destruct (GetPipeline _ _ _) as [pipeline|] eqn:Hget; [|done]. simpl in H.
  destruct (resolveTaskSpecs _ _ _) as [specs| |] eqn:Hspecs; [|done..]. simpl in H.
  destruct (wrapTasks _ _ _ _) as [st| |] eqn:Hloop; [|done..]. simpl in H.
  injection H as <- <-. by exists pipeline, specs, st.
Qed.

(** The task at index [i] of the document is what the body of the loop
    made, at iteration [i], of the task at index [i] of the pipeline. *)
Lemma document_task origParams params doc pipeline i t :
  Resolve_newPipeline origParams = Ok (params, doc) →
  GetPipeline (pipelineClientSet r) (RequestNamespace ctx)
              (goIndex params PipelineRefParam) = Success pipeline →
  tasksOf pipeline !! i = Some t →
  ∃ specs stj stj',
    resolveTaskSpecs r ctx (Pipeline.Spec pipeline) = Ok specs
    ∧ wrapTasks (requested params) (images params) (seq 0 i)
                (initialState pipeline specs) = Ok stj
    ∧ newTasks stj !! i = Some t
    ∧ wrapTask (requested params) (images params) i t stj = Ok stj'
    ∧ tasksOf doc !! i = newTasks stj' !! i.
Proof.
  intros H Hget Ht.
  destruct (Resolve_newPipeline_Ok _ _ _ H)
    as (pipeline' & specs & st & _ & Hget' & Hspecs & Hloop & Hdoc & _).
  rewrite Hget in Hget'. injection Hget' as <-.
  destruct (wrapTasks_lookup _ _ _ _ _ _ i t Hloop) as (stj & stj' & Hpre & Hbody & Hj & Hpost);
    [by eapply lookup_lt_Some | done |].
  exists specs, stj, stj'. by rewrite Hdoc.
Qed.

(** The two cases of the body of the loop, read on the document. *)
Lemma document_binding origParams params doc pipeline i t :
  Resolve_newPipeline origParams = Ok (params, doc) →
  GetPipeline (pipelineClientSet r) (RequestNamespace ctx)
              (goIndex params PipelineRefParam) = Success pipeline →
  tasksOf pipeline !! i = Some t →
  (usesAny (requested params) t = false ∧ tasksOf doc !! i = Some t)
  ∨ (usesAny (requested params) t = true
     ∧ ∃ specs stj s e,
         resolveTaskSpecs r ctx (Pipeline.Spec pipeline) = Ok specs
         ∧ wrapTasks (requested params) (images params) (seq 0 i)
                     (initialState pipeline specs) = Ok stj
         ∧ taskSpecs stj !! PipelineTask.Name t = Some s
         ∧ PipelineTask.TaskSpec t = Some e
         ∧ tasksOf doc !! i =
             Some (inlined
                     (wrappedSpec (requested params) (images params) i s
                                  (PipelineTask.Workspaces t) (baseimage stj))
                     e t)).
Proof.
  intros H Hget Ht.
  destruct (document_task _ _ _ _ _ _ H Hget Ht)
    as (specs & stj & stj' & Hspecs & Hpre & Hj & Hbody & Hdoc).
  destruct (usesAny (requested params) t) eqn:Hu; [right|left]; (split; [done|]).
  - destruct (wrapTask_Ok _ _ _ _ _ _ _ Hu Hbody) as (s & cur & e & Hs & Hcur & He & Hnew & _).
    rewrite Hj in Hcur. injection Hcur as <-.
    exists specs, stj, s, e. split_and!; [done..|].
    rewrite Hdoc, Hnew. apply list_lookup_insert_eq. by eapply lookup_lt_Some.
  - rewrite wrapTask_skip in Hbody by done. injection Hbody as <-. by rewrite Hdoc.
Qed.

(** X11: [Resolve] returns a document for a request whose pipeline is found,
    whose task specs all resolve, and whose tasks that use a requested
    workspace have an inline template. *)
Lemma Resolve_newPipeline_total origParams params pipeline :
  populateParamsWithDefaults (ResolverConfig ctx) origParams = Ok params →
  GetPipeline (pipelineClientSet r) (RequestNamespace ctx)
              (goIndex params PipelineRefParam) = Success pipeline →
  (∀ t, t ∈ tasksOf pipeline → ∃ s, resolveTaskSpec r ctx t = Ok s) →
  (∀ t, t ∈ tasksOf pipeline → usesAny (requested params) t = true →
        is_Some (PipelineTask.TaskSpec t)) →
  ∃ doc, Resolve_newPipeline origParams = Ok (params, doc).
Proof.
  intros Hp Hget Hspecs Hinline.
  rewrite Resolve_newPipeline_unfold, Hp. cbn [mbind outcome_bind]. rewrite Hget.
  cbn [mbind outcome_bind call].
  destruct (resolveTaskSpecs_from_total r ctx (tasksOf pipeline) ∅ Hspecs)
    as (specs & Hres & _ & Hentries).
  unfold resolveTaskSpecs. fold (tasksOf pipeline). rewrite Hres.
  cbn [mbind outcome_bind].
  destruct (wrapTasks_total GetMountPath (requested params) (images params)
              (seq 0 (length (tasksOf pipeline))) (initialState pipeline specs))
    as [st Hst].
  - intros j t Ht. simpl in Ht. apply list_elem_of_lookup_2 in Ht. split; eauto.
  - intros i Hi%elem_of_seq. simpl. lia.
  - rewrite Hst. cbn [mbind outcome_bind]. eauto.
Qed.

(** A task without inline template that uses a requested workspace makes
    the loop panic, whenever the run gets as far as the loop. *)
Lemma wrapTasks_reference_panics params pipeline specs i t :
  tasksOf pipeline !! i = Some t →
  PipelineTask.TaskSpec t = None →
  usesAny (requested params) t = true →
  ∃ msg, wrapTasks (requested params) (images params)
                   (seq 0 (length (tasksOf pipeline))) (initialState pipeline specs)
         = Panic msg.
Proof.
  intros Ht Hnil Hu.
  destruct (wrapTasks _ _ _ _) as [st|err|msg] eqn:Hloop; [| |by exists msg].
  - destruct (wrapTasks_lookup _ _ _ _ _ _ i t Hloop)
      as (stj & stj' & _ & Hbody & Hj & _); [by eapply lookup_lt_Some | done |].
    destruct (wrapTask_Ok _ _ _ _ _ _ _ Hu Hbody) as (s & cur & e & _ & Hcur & He & _).
    rewrite Hj in Hcur. injection Hcur as <-. congruence.
  - by apply wrapTasks_not_Err in Hloop.
Qed.

End Document.

(** ** Parameter validation *)

(** [populateParamsWithDefaults] has no path that returns an error. *)
Lemma populateParamsWithDefaults_no_error conf params err :
  populateParamsWithDefaults conf params ≠ Err err.
Proof.
  rewrite populate_cases.
  destruct (goLookup params WrapperParam); [done|].
  destruct (conf !! DefaultWrapperKey); [|done]. by destruct params.
Qed.

(** When the four parameters are absent and no default wrapper is
    configured, the function collects the four names and returns the nil
    error all the same. *)
Lemma populateParams_missing_all conf params :
  goLookup params PipelineRefParam = None →
  goLookup params TargetParam = None →
  goLookup params WorkspacesParam = None →
  goLookup params WrapperParam = None →
  conf !! DefaultWrapperKey = None →
  populateParams_locals conf params
    = Ok (params, [WrapperParam; PipelineRefParam; TargetParam; WorkspacesParam])
  ∧ populateParamsWithDefaults conf params = Ok params.
Proof.
  intros Hp Ht Hw Hwr Hconf.
  unfold populateParamsWithDefaults, populateParams_locals.
  rewrite Hwr, Hconf. simpl. by rewrite Hp, Ht, Hw.
Qed.

(** C1 (code at the failing input): on the empty parameter map with an
    empty configuration, [populateParamsWithDefaults] gathers the four
    missing names, wrapper first, and [ValidateParams] returns the nil
    error instead of a MissingParameter error. *)
Theorem ValidateParams_missing_all_accepted :
  populateParams_locals ∅ (MapOf ∅)
    = Ok (MapOf ∅, ["wrapper"; "pipelineref"; "target"; "workspaces"])
  ∧ ValidateParams Sample.ctx (MapOf ∅) = Ok ().
Proof. split; reflexivity. Qed.

(** ** A task bound by reference *)

(** C2 (code at the failing input): the pipeline's task [build] is bound
    by reference, has no inline template and uses the requested workspace
    [sources]; its task is found in the cluster, and [Resolve] ends in a
    nil pointer dereference, neither a document nor an error. *)
Theorem Resolve_reference_task_panics :
  Resolve Sample.mountPath Sample.marshal elements Sample.resolver Sample.ctx
          (MapOf (Sample.paramsFor "reference-pipeline"))
  = Panic nilDeref.
Proof. vm_compute. reflexivity. Qed.

(** ** The tasks of the resolved document *)

Section Transformation.
Variable GetMountPath : WorkspaceDeclaration.t → string.
Variable rangeOrder : gset string → list string.
Variables (r : Resolver) (ctx : Context).

Local Abbreviation Resolve_newPipeline := (Resolve_newPipeline GetMountPath rangeOrder r ctx).
Local Abbreviation images := (images rangeOrder).
Local Abbreviation importThenExport := (importThenExport GetMountPath).
Local Abbreviation exportOnly := (exportOnly GetMountPath).

(** C3, as amended: in the document of a resolved request, every task that
    uses at least one requested workspace is bound inline: it has no
    reference and carries an inline template.  (Tasks that use none are
    skipped by the loop and keep their binding.) *)
Theorem wrapped_bindings_inline origParams params doc i t' :
  Resolve_newPipeline origParams = Ok (params, doc) →
  tasksOf doc !! i = Some t' →
  usesAny (requested params) t' = true →
  PipelineTask.TaskRef t' = None ∧ is_Some (PipelineTask.TaskSpec t').
Proof.
  intros H Ht' Hu.
  destruct (Resolve_newPipeline_Ok _ _ _ _ _ _ _ H)
    as (pipeline & specs & st & _ & Hget & _ & Hloop & Hdoc & _).
  destruct (wrapTasks_frame _ _ _ _ _ _ Hloop) as [Hlen _].
  destruct (lookup_lt_is_Some_2 (tasksOf pipeline) i) as [t Ht].
  { apply lookup_lt_Some in Ht'. rewrite Hdoc, Hlen in Ht'. done. }
  destruct (document_binding _ _ _ _ _ _ _ _ _ _ H Hget Ht)
    as [[Hskip Hsame]|[_ (specs' & stj & s & e & _ & _ & _ & _ & Hnew)]].
  - rewrite Hsame in Ht'. injection Ht' as <-. congruence.
  - rewrite Hnew in Ht'. injection Ht' as <-. simpl. eauto.
Qed.

(** C4: in the document of a resolved request whose pipeline has pairwise
    distinct task names, a task at an index other than 0 that uses a
    requested workspace has the steps of its task spec with one import
    step in front and one export step at the end, each with one script
    that combines the requested uses; the task spec is the inline one when
    the task has no reference. *)
Theorem later_task_import_and_export origParams params doc pipeline i t :
  Resolve_newPipeline origParams = Ok (params, doc) →
  GetPipeline (pipelineClientSet r) (RequestNamespace ctx)
              (goIndex params PipelineRefParam) = Success pipeline →
  NoDup (PipelineTask.Name <$> tasksOf pipeline) →
  tasksOf pipeline !! i = Some t →
  0 < i →
  usesAny (requested params) t = true →
  ∃ s e,
    resolveTaskSpec r ctx t = Ok s
    ∧ PipelineTask.TaskSpec t = Some e
    ∧ (PipelineTask.TaskRef t = None → s = EmbeddedTask.TaskSpec e)
    ∧ tasksOf doc !! i =
        Some (inlined
                (TaskSpec.setSteps
                   (importThenExport (requested params) (images params) s
                                     (PipelineTask.Workspaces t))
                   s)
                e t).
Proof.
  intros H Hget Hnd Ht Hi Hu.
  destruct (document_binding _ _ _ _ _ _ _ _ _ _ H Hget Ht)
    as [[Hskip _]|[_ (specs & stj & s & e & Hspecs & Hpre & Hs & He & Hnew)]];
    [congruence|].
  destruct (resolveTaskSpecs_own _ _ _ _ _ _ Hspecs Ht) as (s' & Hown & Hs').
  { intros j t' Hj Ht'. eapply NoDup_names_lookup; [done..|lia]. }
  rewrite (wrapTasks_specs _ _ _ _ _ _ _ Hpre) in Hs.
  2:{ intros j t' Hj Ht'. apply elem_of_seq in Hj.
      eapply NoDup_names_lookup; [done..|lia]. }
  simpl in Hs. rewrite Hs' in Hs. injection Hs as ->.
  exists s, e. split_and!; [done..| |].
  - intros Href. unfold resolveTaskSpec in Hown. rewrite Href, He in Hown.
    by injection Hown as <-.
  - rewrite Hnew. by rewrite wrappedSpec_later by lia.
Qed.

(** C5: in the document of a resolved request, the task at index 0 gets no
    import step.  When it uses a requested workspace its steps are those
    of the task spec registered under its name, followed by one export
    step whose layers are appended to the default base image; that task
    spec is its own when no later task bears its name.  When it uses none,
    it is the task of the pipeline. *)
Theorem first_task_export_only origParams params doc pipeline t :
  Resolve_newPipeline origParams = Ok (params, doc) →
  GetPipeline (pipelineClientSet r) (RequestNamespace ctx)
              (goIndex params PipelineRefParam) = Success pipeline →
  tasksOf pipeline !! 0 = Some t →
  (usesAny (requested params) t = false → tasksOf doc !! 0 = Some t)
  ∧ (usesAny (requested params) t = true →
     ∃ specs s e,
       resolveTaskSpecs r ctx (Pipeline.Spec pipeline) = Ok specs
       ∧ specs !! PipelineTask.Name t = Some s
       ∧ (PipelineTask.Name t ∉ PipelineTask.Name <$> drop 1 (tasksOf pipeline) →
          resolveTaskSpec r ctx t = Ok s)
       ∧ PipelineTask.TaskSpec t = Some e
       ∧ tasksOf doc !! 0 =
           Some (inlined
                   (TaskSpec.setSteps
                      (exportOnly (requested params) (images params) s
                                  (PipelineTask.Workspaces t))
                      s)
                   e t)).
Proof.
  intros H Hget Ht.
  destruct (document_binding _ _ _ _ _ _ _ _ _ _ H Hget Ht)
    as [[Hskip Hsame]|[Hu (specs & stj & s & e & Hspecs & Hpre & Hs & He & Hnew)]].
  - split; [done|congruence].
  - split; [congruence|]. intros _.
    simpl in Hpre. injection Hpre as <-. simpl in Hs, Hnew.
    exists specs, s, e. split_and!; [done..| |done|].
    + intros Hlater.
      destruct (resolveTaskSpecs_own _ _ _ _ _ _ Hspecs Ht) as (s' & Hown & Hs').
      * intros j t' Hj Ht' Heq. apply Hlater. rewrite <-Heq.
        apply list_elem_of_fmap. exists t'. split; [done|].
        apply list_elem_of_lookup. exists (j - 1). rewrite lookup_drop.
        by replace (1 + (j - 1)) with j by lia.
      * congruence.
    + by rewrite Hnew, wrappedSpec_first.
Qed.

(** C6: in the document of a resolved request, a task none of whose uses
    names a requested workspace is the task of the pipeline at the same
    index, unchanged in every field. *)
Theorem unrelated_task_unchanged origParams params doc pipeline i t :
  Resolve_newPipeline origParams = Ok (params, doc) →
  GetPipeline (pipelineClientSet r) (RequestNamespace ctx)
              (goIndex params PipelineRefParam) = Success pipeline →
  tasksOf pipeline !! i = Some t →
  usesAny (requested params) t = false →
  tasksOf doc !! i = Some t.
Proof.
  intros H Hget Ht Hu.
  destruct (document_binding _ _ _ _ _ _ _ _ _ _ H Hget Ht) as [[_ Hsame]|[Hu' _]];
    [done|congruence].
Qed.

(** C7: the document of a resolved request has as many tasks as the
    pipeline, with the same names in the same order; the task at an index
    differs from the task of the pipeline at that index at most in its
    reference and its inline template. *)
Theorem tasks_count_order_names origParams params doc pipeline :
  Resolve_newPipeline origParams = Ok (params, doc) →
  GetPipeline (pipelineClientSet r) (RequestNamespace ctx)
              (goIndex params PipelineRefParam) = Success pipeline →
  length (tasksOf doc) = length (tasksOf pipeline)
  ∧ PipelineTask.Name <$> tasksOf doc = PipelineTask.Name <$> tasksOf pipeline
  ∧ ∀ i t t',
      tasksOf pipeline !! i = Some t → tasksOf doc !! i = Some t' →
      PipelineTask.Name t' = PipelineTask.Name t
      ∧ PipelineTask.RunAfter t' = PipelineTask.RunAfter t
      ∧ PipelineTask.Params t' = PipelineTask.Params t
      ∧ PipelineTask.Workspaces t' = PipelineTask.Workspaces t.
Proof.
  intros H Hget.
  destruct (Resolve_newPipeline_Ok _ _ _ _ _ _ _ H)
    as (pipeline' & specs & st & _ & Hget' & _ & Hloop & Hdoc & _).
  rewrite Hget in Hget'. injection Hget' as <-.
  destruct (wrapTasks_frame _ _ _ _ _ _ Hloop) as [Hlen _].
  split_and!.
  - by rewrite Hdoc, Hlen.
  - apply list_eq. intros j. rewrite !list_lookup_fmap, Hdoc.
    apply (wrapTasks_names _ _ _ _ _ _ j Hloop).
  - intros i t t' Ht Ht'.
    destruct (document_binding _ _ _ _ _ _ _ _ _ _ H Hget Ht)
      as [[_ Hsame]|[_ (specs' & stj & s & e & _ & _ & _ & _ & Hnew)]].
    + rewrite Hsame in Ht'. by injection Ht' as <-.
    + rewrite Hnew in Ht'. by injection Ht' as <-.
Qed.

End Transformation.

(** ** Occurrences of the separator *)

Lemma prefix_append a b : String.prefix a (a +:+ b) = true.
Proof.
  induction a as [|c a IH]; [by destruct b|].
  change (String.prefix (String c a) (String c (a +:+ b)) = true).
  simpl. by destruct (ascii_dec c c).
Qed.

Lemma prefix_true a s : String.prefix a s = true → ∃ b, s = a +:+ b.
Proof.
  revert s. induction a as [|c a IH]; intros s H; [by exists s|].
  destruct s as [|d s]; [done|]. simpl in H.
  destruct (ascii_dec c d) as [->|]; [|done].
  destruct (IH _ H) as [b ->]. by exists b.
Qed.

Lemma prefix_shorter a x y :
  String.prefix a (x +:+ y) = true → String.length a ≤ String.length x →
  String.prefix a x = true.
Proof.
  revert x. induction a as [|c a IH]; intros x H Hlen; [by destruct x|].
  destruct x as [|d x]; [simpl in Hlen; lia|].
  change (String.prefix (String c a) (String d (x +:+ y)) = true) in H.
  simpl in H |- *. destruct (ascii_dec c d); [|done].
  apply IH; [done|]. simpl in Hlen. lia.
Qed.

Lemma length_append (a b : string) :
  String.length (a +:+ b) = String.length a + String.length b.
Proof.
  induction a as [|c a IH]; [done|].
  change (S (String.length (a +:+ b)) = S (String.length a + String.length b)).
  by rewrite IH.
Qed.

(** Bytes of a separator that was found are passed over. *)
Lemma replaceFrom_skip old new x s :
  replaceFrom old new (String.length x) (x +:+ s) = replaceFrom old new 0 s.
Proof. induction x as [|c x IH]; [done|]. apply IH. Qed.

(** A string without occurrence of [old] is left as it is. *)
Lemma replaceFrom_none old new s :
  ¬ occursIn old s → replaceFrom old new 0 s = s.
Proof.
  induction s as [|c s IH]; intros Hno; [done|].
  rewrite replaceFrom_String.
  destruct (String.prefix old (String c s)) eqn:Hp.
  - destruct Hno. apply prefix_true in Hp as [b ->]. by exists EmptyString, b.
  - rewrite IH; [done|]. intros (a & b & ->). apply Hno. by exists (String c a), b.
Qed.

(** The first occurrence of [old] is replaced by [new], what precedes it is
    kept, and the replacement goes on after it. *)
Lemma replaceFrom_first old new pre post :
  old ≠ EmptyString → firstAfter old pre →
  replaceFrom old new 0 (pre +:+ old +:+ post)
  = pre +:+ new +:+ replaceFrom old new 0 post.
Proof.
  intros Hold. induction pre as [|c pre IH]; intros Hfirst.
  - destruct old as [|o old]; [done|].
    change (replaceFrom (String o old) new 0 (String o (old +:+ post))
            = new +:+ replaceFrom (String o old) new 0 post).
    rewrite replaceFrom_String.
    change (String o (old +:+ post)) with (String o old +:+ post).
    rewrite prefix_append. f_equal.
    change (String.length (String o old) - 1) with (String.length old - 0).
    rewrite Nat.sub_0_r. apply replaceFrom_skip.
  - change (replaceFrom old new 0 (String c (pre +:+ old +:+ post))
            = String c (pre +:+ new +:+ replaceFrom old new 0 post)).
    rewrite replaceFrom_String.
    destruct (String.prefix old (String c (pre +:+ old +:+ post))) eqn:Hp.
    + exfalso.
      change (String c (pre +:+ old +:+ post)) with (String c pre +:+ old +:+ post) in Hp.
      rewrite <-append_assoc in Hp.
      apply prefix_shorter in Hp; [|rewrite length_append; lia].
      apply prefix_true in Hp as [b Hb].
      by specialize (Hfirst EmptyString b Hb).
    + f_equal. apply IH. intros a b Hab.
      assert (String c a = String c pre) as Heq; [|by injection Heq].
      apply (Hfirst (String c a) b).
      change (String c (pre +:+ old) = String c (a +:+ old +:+ b)). by rewrite Hab.
Qed.

(** ** Target images *)

Lemma targetImages_order order1 order2 (s : gset string) target :
  order1 s ≡ₚ elements s → order2 s ≡ₚ elements s →
  targetImages (List order1 s) target = targetImages (List order2 s) target.
Proof.
  intros H1 H2. apply map_eq. intros w. rewrite !targetImages_lookup.
  apply (f_equal (λ b : bool, if b then _ else _)), bool_decide_ext.
  by rewrite !elem_of_List.
Qed.

(** C8: the map of target images has one entry for each requested
    workspace name and no other; the entry of [w] is the target template
    with [w] in place of the placeholder.  The replacement cuts the
    template at every occurrence of the placeholder, leftmost first, and
    joins the pieces with [w]: a template without occurrence is kept, and
    after the first occurrence the replacement goes on.  The names [a] and
    [b] against [repo/{{workspace}}] give [repo/a] and [repo/b]. *)
Theorem target_images_resolution (rangeOrder : gset string → list string)
    (names : list string) (target w : string) :
  (∀ s, rangeOrder s ≡ₚ elements s) →
  targetImages (List rangeOrder (NewString names)) target !! w
    = (if bool_decide (w ∈ names)
       then Some (ReplaceAll target placeholder w) else None)
  ∧ ReplaceAll target placeholder w = Join (Split target placeholder) w
  ∧ (¬ occursIn placeholder target → ReplaceAll target placeholder w = target)
  ∧ (∀ pre post,
       target = pre +:+ placeholder +:+ post → firstAfter placeholder pre →
       ReplaceAll target placeholder w
       = pre +:+ w +:+ ReplaceAll post placeholder w)
  ∧ targetImages (List rangeOrder (NewString ["a"; "b"])) "repo/{{workspace}}"
    = {[ "a" := "repo/a"; "b" := "repo/b" ]}.
Proof.
  intros Horder.
  assert (∀ l tg x, targetImages (List rangeOrder (NewString l)) tg !! x
                    = if bool_decide (x ∈ l)
                      then Some (ReplaceAll tg placeholder x) else None) as Hlookup.
  { intros l tg x. rewrite targetImages_lookup.
    apply (f_equal (λ b : bool, if b then _ else _)), bool_decide_ext.
    rewrite elem_of_List by done. unfold NewString. apply elem_of_list_to_set. }
  split_and!.
  - apply Hlookup.
  - apply ReplaceAll_Join_Split.
  - apply replaceFrom_none.
  - intros pre post -> Hfirst. by apply replaceFrom_first.
  - apply map_eq. intros x. rewrite Hlookup.
    destruct (decide (x = "a")) as [->|Ha]; [done|].
    destruct (decide (x = "b")) as [->|Hb]; [done|].
    rewrite bool_decide_false.
    + rewrite lookup_insert_ne by done. by rewrite lookup_singleton_ne.
    + rewrite !elem_of_cons, elem_of_nil. tauto.
Qed.

(** ** The wrapper parameter *)

Lemma goIndex_goDelete params k k' :
  k ≠ k' → goIndex (goDelete params k') k = goIndex params k.
Proof.
  intros Hne. destruct params as [|m]; [done|].
  unfold goIndex. simpl. by rewrite lookup_delete_ne.
Qed.

Lemma goDelete_goStore params k v q :
  goStore params k v = Ok q → goDelete q k = goDelete params k.
Proof.
  destruct params as [|m]; [done|]. intros H. injection H as <-.
  simpl. by rewrite delete_insert_eq.
Qed.

(** Populating the parameters changes the wrapper entry at most. *)
Lemma populate_goDelete conf params q :
  populateParamsWithDefaults conf params = Ok q →
  goDelete q WrapperParam = goDelete params WrapperParam.
Proof.
  rewrite populate_cases.
  destruct (goLookup params WrapperParam); [by intros [= <-]|].
  destruct (conf !! DefaultWrapperKey); [|by intros [= <-]].
  apply goDelete_goStore.
Qed.

Lemma goIndex_agree q1 q2 k :
  goDelete q1 WrapperParam = goDelete q2 WrapperParam → k ≠ WrapperParam →
  goIndex q1 k = goIndex q2 k.
Proof.
  intros H Hk.
  by rewrite <-(goIndex_goDelete q1 k WrapperParam), <-(goIndex_goDelete q2 k WrapperParam), H.
Qed.

Lemma resolveTaskSpecs_from_namespace r ctx1 ctx2 m tasks :
  RequestNamespace ctx1 = RequestNamespace ctx2 →
  resolveTaskSpecs_from r ctx1 m tasks = resolveTaskSpecs_from r ctx2 m tasks.
Proof.
  intros Hns. revert m. induction tasks as [|t tasks IH]; intros m; [done|].
  simpl. unfold resolveTaskSpec, getTaskSpec. rewrite Hns.
  destruct (PipelineTask.TaskRef t).
  - destruct (GetTask _ _ _); simpl; [apply IH | done].
  - destruct (PipelineTask.TaskSpec t); simpl; [apply IH | done].
Qed.

Section Wrapper.
Variable GetMountPath : WorkspaceDeclaration.t → string.
Variable yaml_Marshal : Pipeline.t → result string.
Variable rangeOrder : gset string → list string.
Variable r : Resolver.

Local Abbreviation Resolve := (Resolve GetMountPath yaml_Marshal rangeOrder r).

(** [Resolve] reads the context for the namespace, and the populated
    parameters for the pipeline reference, the workspaces and the target. *)
Lemma Resolve_congruence ctx1 ctx2 p1 p2 q1 q2 :
  RequestNamespace ctx1 = RequestNamespace ctx2 →
  populateParamsWithDefaults (ResolverConfig ctx1) p1 = Ok q1 →
  populateParamsWithDefaults (ResolverConfig ctx2) p2 = Ok q2 →
  goIndex q1 PipelineRefParam = goIndex q2 PipelineRefParam →
  goIndex q1 WorkspacesParam = goIndex q2 WorkspacesParam →
  goIndex q1 TargetParam = goIndex q2 TargetParam →
  Resolve ctx1 p1 = Resolve ctx2 p2.
Proof.
  intros Hns Hq1 Hq2 Href Hws Htarget.
  unfold Resolve, Resolve_newPipeline, resolveTaskSpecs.
  rewrite Hq1, Hq2. simpl. rewrite Hns, Href, Hws, Htarget.
  destruct (GetPipeline _ _ _) as [pipeline|]; [|done]. simpl.
  rewrite (resolveTaskSpecs_from_namespace r ctx1 ctx2) by done.
  destruct (resolveTaskSpecs_from _ _ _ _) as [specs| |]; [|done..]. simpl.
  destruct (wrapTasks _ _ _ _ _) as [st| |]; [|done..]. simpl.
  destruct (yaml_Marshal _); [|done]. simpl. by rewrite Href.
Qed.

(** C9: two requests that supply a wrapper and are the same but for the
    wrapper - its value as a parameter, or the configuration that supplies
    it - have the same result: the same document and annotation, the same
    error, or the same panic. *)
Theorem wrapper_not_observable ctx1 ctx2 p1 p2 :
  RequestNamespace ctx1 = RequestNamespace ctx2 →
  goDelete p1 WrapperParam = goDelete p2 WrapperParam →
  suppliesWrapper ctx1 p1 →
  suppliesWrapper ctx2 p2 →
  Resolve ctx1 p1 = Resolve ctx2 p2.
Proof.
  intros Hns Hdel Hs1 Hs2.
  destruct (populateParamsWithDefaults (ResolverConfig ctx1) p1) as [q1|e1|m1] eqn:Hq1;
    [|by apply populateParamsWithDefaults_no_error in Hq1|].
  - destruct (populateParamsWithDefaults (ResolverConfig ctx2) p2) as [q2|e2|m2] eqn:Hq2;
      [|by apply populateParamsWithDefaults_no_error in Hq2|].
    + pose proof (populate_goDelete _ _ _ Hq1) as Hd1.
      pose proof (populate_goDelete _ _ _ Hq2) as Hd2.
      assert (goDelete q1 WrapperParam = goDelete q2 WrapperParam) as Hq by congruence.
      apply (Resolve_congruence _ _ _ _ q1 q2); [done..| | |];
        by apply goIndex_agree.
    + (* the second request panics: its map is nil, and so is the first *)
      rewrite populate_cases in Hq1, Hq2.
      destruct p2 as [|m]; [|by repeat case_match].
      destruct p1 as [|m]; [|done]. simpl in Hq1.
      destruct Hs1 as [[? [=]]|[v Hv]]. by rewrite Hv in Hq1.
  - rewrite populate_cases in Hq1.
    destruct p1 as [|m]; [|by repeat case_match].
    destruct p2 as [|m]; [|done].
    unfold Resolve, Resolve_newPipeline. rewrite !populate_cases. simpl.
    destruct Hs1 as [[? [=]]|[v1 ->]]. destruct Hs2 as [[? [=]]|[v2 ->]]. done.
Qed.

End Wrapper.

(** ** Determinism *)

(** C10: the result of [Resolve] does not depend on the order in which Go
    ranges over the set of workspaces, the one choice the language leaves
    open; the pipeline, the parameters, the configuration and the cluster
    being the same, two runs give the same document, and the import and
    export scripts of a task are the same text. *)
Theorem Resolve_deterministic
    (GetMountPath : WorkspaceDeclaration.t → string)
    (yaml_Marshal : Pipeline.t → result string)
    (order1 order2 : gset string → list string)
    (r : Resolver) (ctx : Context) (origParams : gomap) :
  (∀ s, order1 s ≡ₚ elements s) →
  (∀ s, order2 s ≡ₚ elements s) →
  Resolve GetMountPath yaml_Marshal order1 r ctx origParams
  = Resolve GetMountPath yaml_Marshal order2 r ctx origParams
  ∧ Resolve_newPipeline GetMountPath order1 r ctx origParams
    = Resolve_newPipeline GetMountPath order2 r ctx origParams
  ∧ ∀ params s uses i b,
      importScript GetMountPath (requested params) (images order1 params) s uses b
      = importScript GetMountPath (requested params) (images order2 params) s uses b
      ∧ exportScript GetMountPath (requested params) (images order1 params) i s uses b
        = exportScript GetMountPath (requested params) (images order2 params) i s uses b.
Proof.
  intros H1 H2.
  assert (∀ params, images order1 params = images order2 params) as Himages.
  { intros params. unfold images. by apply targetImages_order. }
  assert (Resolve_newPipeline GetMountPath order1 r ctx origParams
          = Resolve_newPipeline GetMountPath order2 r ctx origParams) as Hdoc.
  { rewrite !Resolve_newPipeline_unfold.
    destruct (populateParamsWithDefaults _ _) as [params| |]; [|done..].
    cbn [mbind outcome_bind]. by rewrite Himages. }
  split_and!.
  - unfold Resolve. by rewrite Hdoc.
  - done.
  - intros params s uses i b. by rewrite Himages.
Qed.

(** ** The properties at work on the sample cluster *)

Lemma linted_resolved :
  Resolve_newPipeline Sample.mountPath elements Sample.resolver Sample.ctx
                      (MapOf (Sample.paramsFor "linted-pipeline"))
  = Ok (MapOf (Sample.paramsFor "linted-pipeline"), Sample.lintedDocument).
Proof. vm_compute. reflexivity. Qed.

(** The steps of the three tasks of the document: the first task ends
    with the export step, the second is between the import and the export
    step, and [lint], which uses no workspace, still has no inline
    template. *)
Example linted_step_names :
  map (λ t, map Step.Name
              (from_option (TaskSpec.Steps ∘ EmbeddedTask.TaskSpec) []
                           (PipelineTask.TaskSpec t)))
      (tasksOf Sample.lintedDocument)
  = [["clone"; "export-workspace"];
     ["import-workspace"; "build"; "export-workspace"];
     []].
Proof. vm_compute. reflexivity. Qed.

(** The import script of [build]. *)
Example build_import_script :
  combinedImport Sample.mountPath
    (requested (MapOf (Sample.paramsFor "linted-pipeline")))
    (images elements (MapOf (Sample.paramsFor "linted-pipeline")))
    Sample.buildSpec (PipelineTask.Workspaces Sample.build)
  = "#!/busybox/sh -e" +:+ nl
    +:+ "echo " +:+ dq
    +:+ "Extract workspace content from registry.local/run-sources:latest in /workspace/sources"
    +:+ dq +:+ nl
    +:+ "crane export registry.local/run-sources:latest | tar -x -C /workspace/sources"
    +:+ nl.
Proof. vm_compute. reflexivity. Qed.

(** C3, as stated, fails: the task [lint] of [linted-pipeline] is bound by
    reference and uses no workspace; the request is resolved, and the
    document still binds [lint] by reference. *)
Lemma all_bindings_inline_fails :
  ¬ (∀ GetMountPath rangeOrder r ctx origParams params doc,
       Resolve_newPipeline GetMountPath rangeOrder r ctx origParams = Ok (params, doc) →
       allBindingsInline doc).
Proof.
  intros Hinline.
  pose proof (Hinline _ _ _ _ _ _ _ linted_resolved Sample.lint) as Href.
  discriminate Href.
  apply list_elem_of_lookup. by exists 2.
Qed.

(** The task [build] of the resolved [linted-pipeline] uses [sources] and
    is bound inline. *)
Lemma wrapped_bindings_inline_witness :
  ∃ t',
    tasksOf Sample.lintedDocument !! 1 = Some t'
    ∧ usesAny (requested (MapOf (Sample.paramsFor "linted-pipeline"))) t' = true
    ∧ PipelineTask.TaskRef t' = None
    ∧ is_Some (PipelineTask.TaskSpec t').
Proof.
  eexists. split; [reflexivity|]. split; [vm_compute; reflexivity|].
  apply (wrapped_bindings_inline Sample.mountPath elements Sample.resolver Sample.ctx
           (MapOf (Sample.paramsFor "linted-pipeline"))
           (MapOf (Sample.paramsFor "linted-pipeline")) Sample.lintedDocument 1);
    vm_compute; reflexivity.
Defined.

(** The task [build], at index 1 of [linted-pipeline], has its steps
    between one import step and one export step. *)
Lemma later_task_import_and_export_witness :
  ∃ s e,
    resolveTaskSpec Sample.resolver Sample.ctx Sample.build = Ok s
    ∧ PipelineTask.TaskSpec Sample.build = Some e
    ∧ (PipelineTask.TaskRef Sample.build = None → s = EmbeddedTask.TaskSpec e)
    ∧ tasksOf Sample.lintedDocument !! 1 =
        Some (inlined
                (TaskSpec.setSteps
                   (importThenExport Sample.mountPath
                      (requested (MapOf (Sample.paramsFor "linted-pipeline")))
                      (images elements (MapOf (Sample.paramsFor "linted-pipeline")))
                      s (PipelineTask.Workspaces Sample.build))
                   s)
                e Sample.build).
Proof.
  apply (later_task_import_and_export Sample.mountPath elements Sample.resolver Sample.ctx
           (MapOf (Sample.paramsFor "linted-pipeline"))
           (MapOf (Sample.paramsFor "linted-pipeline")) Sample.lintedDocument
           Sample.lintedPipeline 1 Sample.build).
  - vm_compute; reflexivity.
  - vm_compute; reflexivity.
  - apply (bool_decide_unpack _). vm_compute. exact I.
  - reflexivity.
  - lia.
  - vm_compute; reflexivity.
Defined.

(** The task [grab-source], at index 0 of [linted-pipeline], gets the
    export step only. *)
Lemma first_task_export_only_witness :
  (usesAny (requested (MapOf (Sample.paramsFor "linted-pipeline"))) Sample.grabSource = false →
   tasksOf Sample.lintedDocument !! 0 = Some Sample.grabSource)
  ∧ (usesAny (requested (MapOf (Sample.paramsFor "linted-pipeline"))) Sample.grabSource = true →
     ∃ specs s e,
       resolveTaskSpecs Sample.resolver Sample.ctx (Pipeline.Spec Sample.lintedPipeline)
         = Ok specs
       ∧ specs !! PipelineTask.Name Sample.grabSource = Some s
       ∧ (PipelineTask.Name Sample.grabSource
            ∉ PipelineTask.Name <$> drop 1 (tasksOf Sample.lintedPipeline) →
          resolveTaskSpec Sample.resolver Sample.ctx Sample.grabSource = Ok s)
       ∧ PipelineTask.TaskSpec Sample.grabSource = Some e
       ∧ tasksOf Sample.lintedDocument !! 0 =
           Some (inlined
                   (TaskSpec.setSteps
                      (exportOnly Sample.mountPath
                         (requested (MapOf (Sample.paramsFor "linted-pipeline")))
                         (images elements (MapOf (Sample.paramsFor "linted-pipeline")))
                         s (PipelineTask.Workspaces Sample.grabSource))
                      s)
                   e Sample.grabSource)).
Proof.
  apply (first_task_export_only Sample.mountPath elements Sample.resolver Sample.ctx
           (MapOf (Sample.paramsFor "linted-pipeline"))
           (MapOf (Sample.paramsFor "linted-pipeline")) Sample.lintedDocument
           Sample.lintedPipeline Sample.grabSource);
    vm_compute; reflexivity.
Defined.

(** The task [lint], which uses no workspace, is left as it was. *)
Lemma unrelated_task_unchanged_witness :
  usesAny (requested (MapOf (Sample.paramsFor "linted-pipeline"))) Sample.lint = false
  ∧ tasksOf Sample.lintedDocument !! 2 = Some Sample.lint.
Proof.
  split; [vm_compute; reflexivity|].
  apply (unrelated_task_unchanged Sample.mountPath elements Sample.resolver Sample.ctx
           (MapOf (Sample.paramsFor "linted-pipeline"))
           (MapOf (Sample.paramsFor "linted-pipeline")) Sample.lintedDocument
           Sample.lintedPipeline 2 Sample.lint);
    vm_compute; reflexivity.
Defined.

(** [linted-pipeline] and its document have the same tasks by count, order
    and name. *)
Lemma tasks_count_order_names_witness :
  length (tasksOf Sample.lintedDocument) = length (tasksOf Sample.lintedPipeline)
  ∧ PipelineTask.Name <$> tasksOf Sample.lintedDocument
    = PipelineTask.Name <$> tasksOf Sample.lintedPipeline
  ∧ ∀ i t t',
      tasksOf Sample.lintedPipeline !! i = Some t →
      tasksOf Sample.lintedDocument !! i = Some t' →
      PipelineTask.Name t' = PipelineTask.Name t
      ∧ PipelineTask.RunAfter t' = PipelineTask.RunAfter t
      ∧ PipelineTask.Params t' = PipelineTask.Params t
      ∧ PipelineTask.Workspaces t' = PipelineTask.Workspaces t.
Proof.
  apply (tasks_count_order_names Sample.mountPath elements Sample.resolver Sample.ctx
           (MapOf (Sample.paramsFor "linted-pipeline"))
           (MapOf (Sample.paramsFor "linted-pipeline")) Sample.lintedDocument
           Sample.lintedPipeline);
    vm_compute; reflexivity.
Defined.

(** The target images of [sources] and [cache], the set being ranged over
    in the order of [elements]. *)
Lemma target_images_resolution_witness :
  targetImages (List elements (NewString ["sources"; "cache"])) Sample.target !! "cache"
    = (if bool_decide ("cache" ∈ ["sources"; "cache"])
       then Some (ReplaceAll Sample.target placeholder "cache") else None)
  ∧ ReplaceAll Sample.target placeholder "cache"
    = Join (Split Sample.target placeholder) "cache"
  ∧ (¬ occursIn placeholder Sample.target →
     ReplaceAll Sample.target placeholder "cache" = Sample.target)
  ∧ (∀ pre post,
       Sample.target = pre +:+ placeholder +:+ post → firstAfter placeholder pre →
       ReplaceAll Sample.target placeholder "cache"
       = pre +:+ "cache" +:+ ReplaceAll post placeholder "cache")
  ∧ targetImages (List elements (NewString ["a"; "b"])) "repo/{{workspace}}"
    = {[ "a" := "repo/a"; "b" := "repo/b" ]}.
Proof.
  apply (target_images_resolution elements ["sources"; "cache"] Sample.target "cache").
  intros s. reflexivity.
Defined.

(** A request that carries a wrapper and one that takes it from the
    configuration resolve to the same resource. *)
Lemma wrapper_not_observable_witness :
  Resolve Sample.mountPath Sample.marshal elements Sample.resolver Sample.ctx
          (MapOf (<["wrapper" := "registry.local/wrapper:v1"]>
                    (Sample.paramsFor "simple-pipeline")))
  = Resolve Sample.mountPath Sample.marshal elements Sample.resolver Sample.ctxWithDefault
            (MapOf (Sample.paramsFor "simple-pipeline")).
Proof.
  apply (wrapper_not_observable Sample.mountPath Sample.marshal elements Sample.resolver
           Sample.ctx Sample.ctxWithDefault).
  - reflexivity.
  - vm_compute; reflexivity.
  - left. vm_compute. eexists. reflexivity.
  - right. vm_compute. eexists. reflexivity.
Defined.

(** Ranging over the set in one order or in the reverse order gives the
    same resource. *)
Lemma Resolve_deterministic_witness :
  Resolve Sample.mountPath Sample.marshal elements Sample.resolver Sample.ctx
          (MapOf (Sample.paramsFor "simple-pipeline"))
  = Resolve Sample.mountPath Sample.marshal (λ s, reverse (elements s))
            Sample.resolver Sample.ctx (MapOf (Sample.paramsFor "simple-pipeline"))
  ∧ Resolve_newPipeline Sample.mountPath elements Sample.resolver Sample.ctx
                        (MapOf (Sample.paramsFor "simple-pipeline"))
    = Resolve_newPipeline Sample.mountPath (λ s, reverse (elements s))
                          Sample.resolver Sample.ctx
                          (MapOf (Sample.paramsFor "simple-pipeline"))
  ∧ ∀ params s uses i b,
      importScript Sample.mountPath (requested params) (images elements params) s uses b
      = importScript Sample.mountPath (requested params)
                     (images (λ s, reverse (elements s)) params) s uses b
      ∧ exportScript Sample.mountPath (requested params) (images elements params) i s uses b
        = exportScript Sample.mountPath (requested params)
                       (images (λ s, reverse (elements s)) params) i s uses b.
Proof.
  apply (Resolve_deterministic Sample.mountPath Sample.marshal
           elements (λ s, reverse (elements s)) Sample.resolver Sample.ctx
           (MapOf (Sample.paramsFor "simple-pipeline"))).
  - intros s. reflexivity.
  - intros s. apply reverse_Permutation.
Defined.

(** ** Reference-bound tasks in general *)

(** X12: What the sample run shows holds of every request: once the pipeline is
    found and its task specs are resolved, a task that uses a requested
    workspace and has no inline template makes [Resolve] panic. *)
Lemma Resolve_panics_without_inline_template
    (GetMountPath : WorkspaceDeclaration.t → string)
    (yaml_Marshal : Pipeline.t → result string)
    (rangeOrder : gset string → list string)
    (r : Resolver) (ctx : Context) (origParams params : gomap)
    (pipeline : Pipeline.t) (specs : gmap string TaskSpec.t)
    (i : nat) (t : PipelineTask.t) :
  populateParamsWithDefaults (ResolverConfig ctx) origParams = Ok params →
  GetPipeline (pipelineClientSet r) (RequestNamespace ctx)
              (goIndex params PipelineRefParam) = Success pipeline →
  resolveTaskSpecs r ctx (Pipeline.Spec pipeline) = Ok specs →
  tasksOf pipeline !! i = Some t →
  PipelineTask.TaskSpec t = None →
  usesAny (requested params) t = true →
  ∃ msg, Resolve GetMountPath yaml_Marshal rangeOrder r ctx origParams = Panic msg.
Proof.
  intros Hp Hget Hspecs Ht Hnil Hu.
  destruct (wrapTasks_reference_panics GetMountPath rangeOrder params pipeline specs i t
              Ht Hnil Hu) as [msg Hloop].
  exists msg. unfold Resolve. rewrite Resolve_newPipeline_unfold, Hp.
  cbn [mbind outcome_bind]. rewrite Hget. cbn [mbind outcome_bind call].
  rewrite Hspecs. cbn [mbind outcome_bind]. by rewrite Hloop.
Qed.

(** ** Validation and defaults, on every input *)

(** X1: [ValidateParams] rejects nothing: it returns the nil error on every
    parameter map, but for the nil map under a configuration that sets
    [default-wrapper], where storing the default panics. *)
Theorem ValidateParams_outcome ctx params :
  ValidateParams ctx params =
    match params, ResolverConfig ctx !! DefaultWrapperKey with
    | NilMap, Some _ => Panic nilMapWrite
    | _, _ => Ok ()
    end.
Proof.
  unfold ValidateParams. rewrite populate_cases.
  destruct params as [|m]; simpl.
  - by destruct (ResolverConfig ctx !! DefaultWrapperKey).
  - destruct (m !! WrapperParam); [done|].
    by destruct (ResolverConfig ctx !! DefaultWrapperKey).
Qed.

(** X2: The populated map: a wrapper given as a parameter is kept, the
    configured default is taken when there is none, and every other
    parameter is as it was given. *)
Theorem populate_wrapper_precedence conf params q :
  populateParamsWithDefaults conf params = Ok q →
  goLookup q WrapperParam
    = match goLookup params WrapperParam with
      | Some v => Some v
      | None => conf !! DefaultWrapperKey
      end
  ∧ ∀ k, k ≠ WrapperParam → goLookup q k = goLookup params k.
Proof.
  rewrite populate_cases.
  destruct (goLookup params WrapperParam) as [v|] eqn:Hw.
  { intros [= <-]. by rewrite Hw. }
  destruct (conf !! DefaultWrapperKey) as [v|] eqn:Hd.
  - destruct params as [|m]; [done|]. intros [= <-]. simpl. split.
    + by rewrite lookup_insert_eq.
    + intros k Hk. by rewrite lookup_insert_ne.
  - intros [= <-]. by rewrite Hw.
Qed.

(** X3: Populating a populated map changes nothing: [ValidateParams] and then
    [Resolve] on the same map see the same parameters. *)
Theorem populate_idempotent conf params q :
  populateParamsWithDefaults conf params = Ok q →
  populateParamsWithDefaults conf q = Ok q.
Proof.
  rewrite !populate_cases.
  destruct (goLookup params WrapperParam) as [v|] eqn:Hw.
  { intros [= <-]. by rewrite Hw. }
  destruct (conf !! DefaultWrapperKey) as [v|] eqn:Hd.
  - destruct params as [|m]; [done|]. intros [= <-]. simpl.
    by rewrite lookup_insert_eq.
  - intros [= <-]. by rewrite Hw.
Qed.

(** ** What [Resolve] reads of a request *)

(** X4: [Resolve] reads three parameters and nothing else of a parameter map
    that is not nil: two maps that index alike at [pipelineref],
    [workspaces] and [target] - an absent key indexing as the empty
    string - have the same result, whatever else they hold. *)
Theorem Resolve_reads_three_parameters
    (GetMountPath : WorkspaceDeclaration.t → string)
    (yaml_Marshal : Pipeline.t → result string)
    (rangeOrder : gset string → list string)
    (r : Resolver) (ctx : Context) (m1 m2 : gmap string string) :
  goIndex (MapOf m1) PipelineRefParam = goIndex (MapOf m2) PipelineRefParam →
  goIndex (MapOf m1) WorkspacesParam = goIndex (MapOf m2) WorkspacesParam →
  goIndex (MapOf m1) TargetParam = goIndex (MapOf m2) TargetParam →
  Resolve GetMountPath yaml_Marshal rangeOrder r ctx (MapOf m1)
  = Resolve GetMountPath yaml_Marshal rangeOrder r ctx (MapOf m2).
Proof.
  intros Href Hws Htarget.
  assert (∀ m, ∃ q, populateParamsWithDefaults (ResolverConfig ctx) (MapOf m) = Ok q)
    as Hpop.
  { intros m. rewrite populate_cases. simpl.
    destruct (m !! WrapperParam); [eauto|].
    destruct (ResolverConfig ctx !! DefaultWrapperKey); eauto. }
  destruct (Hpop m1) as [q1 Hq1]. destruct (Hpop m2) as [q2 Hq2].
  assert (∀ m q k, populateParamsWithDefaults (ResolverConfig ctx) (MapOf m) = Ok q →
                   k ≠ WrapperParam → goIndex q k = goIndex (MapOf m) k) as Hkeep.
  { intros m q k Hq Hk. apply goIndex_agree; [|done]. by apply populate_goDelete in Hq. }
  apply (Resolve_congruence _ _ _ _ ctx ctx _ _ q1 q2); [done..| | |];
    rewrite (Hkeep m1 q1), (Hkeep m2 q2); done.
Qed.

(** ** Declarations and scripts *)

(** X16: The declaration a use is bound to is the last one of its name among
    the declarations of the task spec, and the zero declaration when none
    bears the name: a use without declaration is no error. *)
Theorem findDeclaration_last decls name :
  findDeclaration decls name
  = default WorkspaceDeclaration.zero (last (declarationsNamed decls name)).
Proof.
  unfold findDeclaration, declarationsNamed.
  generalize WorkspaceDeclaration.zero as w0.
  induction decls as [|d decls IH]; intros w0; [done|].
  simpl. rewrite IH. destruct (String.eqb _ name); [|done].
  destruct (List.filter _ decls) as [|d' l] eqn:E; [done|].
  rewrite last_cons_cons.
  destruct (proj2 (last_is_Some (d' :: l))) as [x ->]; done.
Qed.

Lemma requestedUses_idempotent workspaces uses :
  requestedUses workspaces (requestedUses workspaces uses) = requestedUses workspaces uses.
Proof.
  unfold requestedUses. induction uses as [|pw uses IH]; [done|].
  simpl. destruct (Has workspaces _) eqn:E; [|done]. simpl. by rewrite E, IH.
Qed.

(** X17: The scripts of a task are written from its requested uses alone: the
    uses of other workspaces add nothing, wherever they stand in the list. *)
Theorem scripts_of_requested_uses
    (GetMountPath : WorkspaceDeclaration.t → string)
    (workspaces : gset string) (wtargetimages : gmap string string)
    (i : nat) (s : TaskSpec.t) (uses : list WorkspacePipelineTaskBinding.t)
    (b : string) :
  (importScript GetMountPath workspaces wtargetimages s uses b).2
  = (importScript GetMountPath workspaces wtargetimages s
       (requestedUses workspaces uses) b).2
  ∧ (exportScript GetMountPath workspaces wtargetimages i s uses b).2
    = (exportScript GetMountPath workspaces wtargetimages i s
         (requestedUses workspaces uses) b).2.
Proof.
  unfold importScript, exportScript.
  by rewrite !importBody_closed, !exportBody_closed, requestedUses_idempotent.
Qed.

(** ** Splitting and joining *)

Lemma replaceFrom_same old s :
  old ≠ EmptyString → replaceFrom old old 0 s = s.
Proof.
  intros Hold. remember (String.length s) as n eqn:Hn.
  revert s Hn. induction (lt_wf n) as [n _ IH]. intros s ->.
  destruct s as [|c rest]; [done|]. rewrite replaceFrom_String.
  destruct (String.prefix old (String c rest)) eqn:Hp.
  - apply prefix_true in Hp as [b Hb].
    destruct old as [|o old']; [done|].
    change (String c rest = String o (old' +:+ b)) in Hb. injection Hb as -> ->.
    change (String.length (String o old') - 1) with (String.length old' - 0).
    rewrite Nat.sub_0_r, replaceFrom_skip.
    rewrite (IH (String.length b)); [done| |done].
    simpl. rewrite length_append. lia.
  - f_equal. apply (IH (String.length rest)); [simpl; lia|done].
Qed.

Lemma Join_explode s : Join (explode s) EmptyString = s.
Proof.
  induction s as [|c s IH]; [done|]. simpl explode.
  destruct s as [|c' s']; [done|].
  change (explode (String c' s')) with (String c' EmptyString :: explode s') in IH |- *.
  rewrite Join_cons, IH. done.
Qed.

(** Joining the pieces of a split with the separator gives the string
    back, for every string and every separator. *)
Theorem Join_Split s sep : Join (Split s sep) sep = s.
Proof.
  destruct sep as [|c sep].
  - apply Join_explode.
  - unfold Split. rewrite Join_splitFrom. by apply replaceFrom_same.
Qed.

Lemma splitFrom_none sep cur s :
  ¬ occursIn sep s → splitFrom sep 0 cur s = [cur +:+ s].
Proof.
  revert cur. induction s as [|c s IH]; intros cur Hno.
  - simpl. by rewrite append_nil_r.
  - rewrite splitFrom_String.
    destruct (String.prefix sep (String c s)) eqn:Hp.
    + destruct Hno. apply prefix_true in Hp as [b ->]. by exists EmptyString, b.
    + rewrite IH.
      * by rewrite append_assoc.
      * intros (a & b & ->). apply Hno. by exists (String c a), b.
Qed.

(** X18: A [workspaces] value without comma requests one workspace, the value
    itself; an absent [workspaces] parameter requests the workspace whose
    name is the empty string. *)
Theorem requested_single params :
  ¬ occursIn "," (goIndex params WorkspacesParam) →
  requested params = {[ goIndex params WorkspacesParam ]}
  ∧ (goLookup params WorkspacesParam = None → requested params = {[ EmptyString ]}).
Proof.
  intros Hno.
  assert (requested params = {[ goIndex params WorkspacesParam ]}) as Heq.
  { unfold requested, NewString, Split. rewrite splitFrom_none by done.
    simpl. apply (right_id_L ∅ (∪)). }
  split; [done|]. intros Habsent. rewrite Heq. unfold goIndex. by rewrite Habsent.
Qed.

(** ** The map of task specs *)

Section TaskSpecsMap.
Variables (r : Resolver) (ctx : Context).

Lemma resolveTaskSpecs_from_entry tasks m specs name :
  resolveTaskSpecs_from r ctx m tasks = Ok specs →
  name ∈ PipelineTask.Name <$> tasks →
  ∃ s t, specs !! name = Some s ∧ t ∈ tasks ∧ PipelineTask.Name t = name
         ∧ resolveTaskSpec r ctx t = Ok s.
Proof.
  revert m. induction tasks as [|t tasks IH]; intros m H Hin.
  { by apply elem_of_nil in Hin. }
  simpl in H. destruct (resolveTaskSpec r ctx t) as [s0| |] eqn:Ht; [|done..].
  simpl in H. destruct (decide (name ∈ PipelineTask.Name <$> tasks)) as [Hrest|Hrest].
  - destruct (IH _ H Hrest) as (s & t' & Hs & Ht' & Hname & Hres).
    exists s, t'. split_and!; [done| by right |done..].
  - rewrite fmap_cons in Hin. apply elem_of_cons in Hin as [->|Hin]; [|done].
    exists s0, t. split_and!; [|by left|done..].
    rewrite (resolveTaskSpecs_from_other _ _ _ _ _ _ H); [apply lookup_insert_eq|].
    intros t' Ht' Heq. apply Hrest. rewrite <-Heq. by apply list_elem_of_fmap_2.
Qed.

(** X8: The keys of [taskSpecs] are the names of the tasks of the pipeline,
    and the entry of a name is the task spec of a task that bears it. *)
Theorem resolveTaskSpecs_entries pipelineSpec specs name :
  resolveTaskSpecs r ctx pipelineSpec = Ok specs →
  (is_Some (specs !! name) ↔ name ∈ PipelineTask.Name <$> PipelineSpec.Tasks pipelineSpec)
  ∧ ∀ s, specs !! name = Some s →
         ∃ t, t ∈ PipelineSpec.Tasks pipelineSpec ∧ PipelineTask.Name t = name
              ∧ resolveTaskSpec r ctx t = Ok s.
Proof.
  unfold resolveTaskSpecs. intros H.
  assert (is_Some (specs !! name) → name ∈ PipelineTask.Name <$> PipelineSpec.Tasks pipelineSpec)
    as Hkey.
  { intros [s Hs].
    destruct (decide (name ∈ PipelineTask.Name <$> PipelineSpec.Tasks pipelineSpec))
      as [|Hno]; [done|].
    rewrite (resolveTaskSpecs_from_other _ _ _ _ _ _ H) in Hs; [done|].
    intros t Ht Heq. apply Hno. rewrite <-Heq. by apply list_elem_of_fmap_2. }
  split; [split; [done|]|].
  - intros Hin. destruct (resolveTaskSpecs_from_entry _ _ _ _ H Hin) as (s & _ & -> & _).
    eauto.
  - intros s Hs. destruct (resolveTaskSpecs_from_entry _ _ _ name H) as (s' & t & Hs' & Hrest).
    + apply Hkey. eauto.
    + exists t. by rewrite Hs in Hs'; injection Hs' as <-.
Qed.

Lemma resolveTaskSpec_reference (rename : TaskRef.t → TaskRef.t) t :
  resolveTaskSpec r ctx
    (PipelineTask.setTaskRef (rename <$> PipelineTask.TaskRef t) t)
  = resolveTaskSpec r ctx t.
Proof. unfold resolveTaskSpec. by destruct (PipelineTask.TaskRef t). Qed.

Lemma resolveTaskSpecs_from_reference (rename : TaskRef.t → TaskRef.t) tasks m :
  resolveTaskSpecs_from r ctx m
    (map (λ t, PipelineTask.setTaskRef (rename <$> PipelineTask.TaskRef t) t) tasks)
  = resolveTaskSpecs_from r ctx m tasks.
Proof.
  revert m. induction tasks as [|t tasks IH]; intros m; [done|].
  simpl. rewrite resolveTaskSpec_reference.
  destruct (resolveTaskSpec r ctx t); [apply IH|done..].
Qed.

(** X9: The task of a reference-bound binding is fetched under the name of the
    binding: what the references name - [rename] changes them at will -
    has no part in the task specs that are resolved. *)
Theorem resolveTaskSpecs_ignores_reference (rename : TaskRef.t → TaskRef.t) pipelineSpec :
  resolveTaskSpecs r ctx
    (PipelineSpec.setTasks
       (map (λ t, PipelineTask.setTaskRef (rename <$> PipelineTask.TaskRef t) t)
            (PipelineSpec.Tasks pipelineSpec))
       pipelineSpec)
  = resolveTaskSpecs r ctx pipelineSpec.
Proof. unfold resolveTaskSpecs. simpl. apply resolveTaskSpecs_from_reference. Qed.

(** The loop of [resolveTaskSpecs] stops at the first task whose task spec
    does not resolve. *)
Lemma resolveTaskSpecs_from_stops pre t post m :
  (∀ x, x ∈ pre → ∃ s, resolveTaskSpec r ctx x = Ok s) →
  (∀ err, resolveTaskSpec r ctx t = Err err →
          resolveTaskSpecs_from r ctx m (pre ++ t :: post) = Err err)
  ∧ (∀ msg, resolveTaskSpec r ctx t = Panic msg →
            resolveTaskSpecs_from r ctx m (pre ++ t :: post) = Panic msg).
Proof.
  intros Hpre. revert m. induction pre as [|x pre IH]; intros m.
  - simpl. split; by intros ? ->.
  - simpl. destruct (Hpre x) as [s ->]; [by left|]. simpl.
    apply IH. intros y Hy. apply Hpre. by right.
Qed.

Lemma resolveTaskSpecs_from_Err tasks m err :
  resolveTaskSpecs_from r ctx m tasks = Err err →
  ∃ t e, t ∈ tasks ∧ is_Some (PipelineTask.TaskRef t)
         ∧ GetTask (pipelineClientSet r) (RequestNamespace ctx) (PipelineTask.Name t)
           = Failure e
         ∧ err = fetchError (PipelineTask.Name t) e.
Proof.
  revert m. induction tasks as [|t tasks IH]; intros m H; [done|].
  simpl in H. destruct (resolveTaskSpec r ctx t) as [s|e|] eqn:Ht; simpl in H; [| |done].
  - destruct (IH _ H) as (t' & e & Hin & Hrest). exists t', e. split; [by right|done].
  - injection H as <-. unfold resolveTaskSpec, getTaskSpec in Ht.
    destruct (PipelineTask.TaskRef t) as [ref|] eqn:Href.
    + destruct (GetTask _ _ _) as [task|e'] eqn:Hget; simpl in Ht; [done|].
      injection Ht as <-. exists t, e'. split_and!; [by left|by rewrite Href|done..].
    + by destruct (PipelineTask.TaskSpec t).
Qed.

End TaskSpecsMap.

(** ** Errors, panics and results of [Resolve] *)

Section Results.
Variable GetMountPath : WorkspaceDeclaration.t → string.
Variable yaml_Marshal : Pipeline.t → result string.
Variable rangeOrder : gset string → list string.
Variables (r : Resolver) (ctx : Context).

Local Abbreviation Resolve := (Resolve GetMountPath yaml_Marshal rangeOrder r ctx).
Local Abbreviation Resolve_newPipeline := (Resolve_newPipeline GetMountPath rangeOrder r ctx).

Lemma Resolve_until_taskSpecs origParams params pipeline :
  populateParamsWithDefaults (ResolverConfig ctx) origParams = Ok params →
  GetPipeline (pipelineClientSet r) (RequestNamespace ctx)
              (goIndex params PipelineRefParam) = Success pipeline →
  (∀ err, resolveTaskSpecs r ctx (Pipeline.Spec pipeline) = Err err →
          Resolve origParams = Err err)
  ∧ (∀ msg, resolveTaskSpecs r ctx (Pipeline.Spec pipeline) = Panic msg →
            Resolve origParams = Panic msg).
Proof.
  intros Hp Hget. unfold Resolve. rewrite Resolve_newPipeline_unfold, Hp.
  cbn [mbind outcome_bind]. rewrite Hget. cbn [mbind outcome_bind call].
  split; by intros ? ->.
Qed.

(** X6: When the task of a reference-bound binding cannot be fetched under the
    name of the binding, and the task specs of the bindings before it
    resolve, [Resolve] returns an error that names the binding and carries
    the error of the fetch - whether or not the cluster has the task the
    reference names. *)
Theorem Resolve_fetch_error origParams params pipeline pre t post ref err :
  populateParamsWithDefaults (ResolverConfig ctx) origParams = Ok params →
  GetPipeline (pipelineClientSet r) (RequestNamespace ctx)
              (goIndex params PipelineRefParam) = Success pipeline →
  tasksOf pipeline = pre ++ t :: post →
  (∀ x, x ∈ pre → ∃ s, resolveTaskSpec r ctx x = Ok s) →
  PipelineTask.TaskRef t = Some ref →
  GetTask (pipelineClientSet r) (RequestNamespace ctx) (PipelineTask.Name t) = Failure err →
  Resolve origParams = Err (fetchError (PipelineTask.Name t) err).
Proof.
  intros Hp Hget Htasks Hpre Href Hfetch.
  apply (Resolve_until_taskSpecs _ _ _ Hp Hget).
  unfold resolveTaskSpecs. fold (tasksOf pipeline). rewrite Htasks.
  apply resolveTaskSpecs_from_stops; [done|].
  unfold resolveTaskSpec, getTaskSpec. by rewrite Href, Hfetch.
Qed.

(** X7: A binding with neither a reference nor an inline template makes
    [Resolve] panic while it gathers the task specs, whether or not the
    binding uses a workspace. *)
Theorem Resolve_panics_on_empty_binding origParams params pipeline pre t post :
  populateParamsWithDefaults (ResolverConfig ctx) origParams = Ok params →
  GetPipeline (pipelineClientSet r) (RequestNamespace ctx)
              (goIndex params PipelineRefParam) = Success pipeline →
  tasksOf pipeline = pre ++ t :: post →
  (∀ x, x ∈ pre → ∃ s, resolveTaskSpec r ctx x = Ok s) →
  PipelineTask.TaskRef t = None →
  PipelineTask.TaskSpec t = None →
  Resolve origParams = Panic nilDeref.
Proof.
  intros Hp Hget Htasks Hpre Href Hspec.
  apply (Resolve_until_taskSpecs _ _ _ Hp Hget).
  unfold resolveTaskSpecs. fold (tasksOf pipeline). rewrite Htasks.
  apply resolveTaskSpecs_from_stops; [done|].
  unfold resolveTaskSpec. by rewrite Href, Hspec.
Qed.

(** X5: Every error of [Resolve] is the error of a collaborator: of the fetch
    of the pipeline, of the fetch of the task of a reference-bound binding
    (under the message that names the binding), or of the serialiser.  No
    error comes from the parameters. *)
Theorem Resolve_error_provenance origParams err :
  Resolve origParams = Err err →
  ∃ params,
    populateParamsWithDefaults (ResolverConfig ctx) origParams = Ok params
    ∧ (GetPipeline (pipelineClientSet r) (RequestNamespace ctx)
                   (goIndex params PipelineRefParam) = Failure err
       ∨ ∃ pipeline,
           GetPipeline (pipelineClientSet r) (RequestNamespace ctx)
                       (goIndex params PipelineRefParam) = Success pipeline
           ∧ ((∃ t e, t ∈ tasksOf pipeline
                      ∧ is_Some (PipelineTask.TaskRef t)
                      ∧ GetTask (pipelineClientSet r) (RequestNamespace ctx)
                                (PipelineTask.Name t) = Failure e
                      ∧ err = fetchError (PipelineTask.Name t) e)
              ∨ ∃ doc, Resolve_newPipeline origParams = Ok (params, doc)
                       ∧ yaml_Marshal doc = Failure err)).
Proof.
  unfold Resolve. intros H.
  destruct (Resolve_newPipeline origParams) as [[params doc]|e|msg] eqn:Hdoc;
    simpl in H; [| |done].
  - destruct (Resolve_newPipeline_Ok _ _ _ _ _ _ _ Hdoc)
      as (pipeline & specs & st & Hp & Hget & _).
    exists params. split; [done|]. right. exists pipeline. split; [done|]. right.
    exists doc. split; [done|].
    destruct (yaml_Marshal doc) as [data|e]; simpl in H; [done|]. by injection H as ->.
  - injection H as ->. rewrite Resolve_newPipeline_unfold in Hdoc.
    destruct (populateParamsWithDefaults _ _) as [params|e|msg] eqn:Hp;
      [|by apply populateParamsWithDefaults_no_error in Hp|done].
    exists params. split; [done|]. cbn [mbind outcome_bind] in Hdoc.
    destruct (GetPipeline _ _ _) as [pipeline|e] eqn:Hget; simpl in Hdoc.
    2:{ left. by injection Hdoc as ->. }
    right. exists pipeline. split; [done|]. left.
    destruct (resolveTaskSpecs r ctx (Pipeline.Spec pipeline)) as [specs|e|msg] eqn:Hs;
      simpl in Hdoc.
    + destruct (wrapTasks _ _ _ _ _) as [st|e|msg] eqn:Hloop; simpl in Hdoc; [done| |done].
      by apply wrapTasks_not_Err in Hloop.
    + injection Hdoc as ->. by apply resolveTaskSpecs_from_Err in Hs.
    + done.
Qed.

(** X10: The resource of a resolved request: its data are the serialised
    document; its annotation is the [pipelineref] parameter of the request;
    the document has the kind and API version of a v1beta1 pipeline and,
    but for its tasks, is the pipeline that was fetched. *)
Theorem Resolve_resource origParams res :
  Resolve origParams = Ok res →
  ∃ params pipeline doc,
    GetPipeline (pipelineClientSet r) (RequestNamespace ctx)
                (goIndex origParams PipelineRefParam) = Success pipeline
    ∧ Resolve_newPipeline origParams = Ok (params, doc)
    ∧ yaml_Marshal doc = Success (Data res)
    ∧ Annotations res = {[ "PipelineRef" := goIndex origParams PipelineRefParam ]}
    ∧ Pipeline.Kind doc = "Pipeline"
    ∧ Pipeline.APIVersion doc = "tekton.dev/v1beta1"
    ∧ Pipeline.Name doc = Pipeline.Name pipeline
    ∧ Pipeline.Namespace doc = Pipeline.Namespace pipeline
    ∧ PipelineSpec.setTasks (tasksOf pipeline) (Pipeline.Spec doc) = Pipeline.Spec pipeline.
Proof.
  unfold Resolve. intros H.
  destruct (Resolve_newPipeline origParams) as [[params doc]|e|msg] eqn:Hdoc;
    simpl in H; [|done..].
  destruct (yaml_Marshal doc) as [data|e] eqn:Hdata; simpl in H; [|done].
  injection H as <-.
  pose proof Hdoc as Hunfold. rewrite Resolve_newPipeline_unfold in Hunfold.
  destruct (populateParamsWithDefaults _ _) as [q|e|msg] eqn:Hp; [|done..].
  cbn [mbind outcome_bind] in Hunfold.
  assert (goIndex q PipelineRefParam = goIndex origParams PipelineRefParam) as Href.
  { apply goIndex_agree; [|done]. by apply populate_goDelete in Hp. }
  destruct (GetPipeline _ _ _) as [pipeline|e] eqn:Hget; simpl in Hunfold; [|done].
  destruct (resolveTaskSpecs _ _ _) as [specs|e|msg]; simpl in Hunfold; [|done..].
  destruct (wrapTasks _ _ _ _ _) as [st|e|msg]; simpl in Hunfold; [|done..].
  injection Hunfold as <- <-.
  exists q, pipeline. eexists. rewrite <-Href.
  split; [done|]. split; [reflexivity|]. split; [done|]. split.
  { unfold Annotations. simpl. by rewrite Href. }
  split_and!; [done..|].
  simpl. unfold tasksOf. by destruct (Pipeline.Spec pipeline).
Qed.

End Results.

(** ** Tasks of the document, without assumption on their names *)

Section Shapes.
Variable GetMountPath : WorkspaceDeclaration.t → string.
Variable rangeOrder : gset string → list string.
Variables (r : Resolver) (ctx : Context).

Local Abbreviation Resolve_newPipeline := (Resolve_newPipeline GetMountPath rangeOrder r ctx).
Local Abbreviation images := (images rangeOrder).
Local Abbreviation importThenExport := (importThenExport GetMountPath).
Local Abbreviation exportOnly := (exportOnly GetMountPath).

(** X15: A request whose workspaces no task uses leaves the tasks of the
    pipeline as they are: the document has the very same list of tasks. *)
Theorem unused_workspaces_change_nothing origParams params doc pipeline :
  Resolve_newPipeline origParams = Ok (params, doc) →
  GetPipeline (pipelineClientSet r) (RequestNamespace ctx)
              (goIndex params PipelineRefParam) = Success pipeline →
  (∀ t, t ∈ tasksOf pipeline → usesAny (requested params) t = false) →
  tasksOf doc = tasksOf pipeline.
Proof.
  intros H Hget Hnone.
  destruct (Resolve_newPipeline_Ok _ _ _ _ _ _ _ H)
    as (pipeline' & specs & st & _ & Hget' & _ & Hloop & Hdoc & _).
  rewrite Hget in Hget'. injection Hget' as <-.
  destruct (wrapTasks_frame _ _ _ _ _ _ Hloop) as [Hlen _].
  apply list_eq. intros i.
  destruct (tasksOf pipeline !! i) as [t|] eqn:Ht.
  - destruct (document_binding _ _ _ _ _ _ _ _ _ _ H Hget Ht) as [[_ Hsame]|[Hu _]];
      [done|].
    rewrite Hnone in Hu; [done|]. by apply list_elem_of_lookup_2 in Ht.
  - apply lookup_ge_None. apply lookup_ge_None in Ht.
    rewrite Hdoc, Hlen. done.
Qed.

(** X13: Whatever the names of the tasks, a task that uses a requested
    workspace comes out as its own binding, reference cleared, with an
    inline template that keeps the metadata of its own and holds a task
    spec [s] whose steps are framed: by one export step at index 0, by one
    import and one export step at any other index. *)
Theorem wrapped_task_shape origParams params doc pipeline i t :
  Resolve_newPipeline origParams = Ok (params, doc) →
  GetPipeline (pipelineClientSet r) (RequestNamespace ctx)
              (goIndex params PipelineRefParam) = Success pipeline →
  tasksOf pipeline !! i = Some t →
  usesAny (requested params) t = true →
  ∃ s e,
    PipelineTask.TaskSpec t = Some e
    ∧ tasksOf doc !! i =
        Some (inlined
                (TaskSpec.setSteps
                   (if bool_decide (i = 0)
                    then exportOnly (requested params) (images params) s
                                    (PipelineTask.Workspaces t)
                    else importThenExport (requested params) (images params) s
                                          (PipelineTask.Workspaces t))
                   s)
                e t).
Proof.
  intros H Hget Ht Hu.
  destruct (document_binding _ _ _ _ _ _ _ _ _ _ H Hget Ht)
    as [[Hskip _]|[_ (specs & stj & s & e & Hspecs & Hpre & Hs & He & Hnew)]];
    [congruence|].
  exists s, e. split; [done|]. rewrite Hnew. do 2 f_equal.
  destruct (decide (i = 0)) as [->|Hi].
  - simpl in Hpre. injection Hpre as <-. by rewrite wrappedSpec_first.
  - rewrite bool_decide_false by done. by rewrite wrappedSpec_later.
Qed.

(** X14: Tasks of one name share one task spec, which the loop updates in
    place: when two tasks that use a requested workspace bear the same
    name and no task between them does, the steps of the later one are
    built around all the steps of the template the earlier one comes out
    with, its injected steps included. *)
Theorem same_name_tasks_share_template origParams params doc pipeline j i tj ti :
  Resolve_newPipeline origParams = Ok (params, doc) →
  GetPipeline (pipelineClientSet r) (RequestNamespace ctx)
              (goIndex params PipelineRefParam) = Success pipeline →
  tasksOf pipeline !! j = Some tj →
  tasksOf pipeline !! i = Some ti →
  j < i →
  PipelineTask.Name tj = PipelineTask.Name ti →
  usesAny (requested params) tj = true →
  usesAny (requested params) ti = true →
  (∀ k tk, j < k < i → tasksOf pipeline !! k = Some tk →
           PipelineTask.Name tk ≠ PipelineTask.Name ti) →
  ∃ sj ej ei,
    tasksOf doc !! j = Some (inlined sj ej tj)
    ∧ tasksOf doc !! i =
        Some (inlined
                (TaskSpec.setSteps
                   (importThenExport (requested params) (images params) sj
                                     (PipelineTask.Workspaces ti))
                   sj)
                ei ti).
Proof.
  intros H Hget Htj Hti Hji Hname Huj Hui Hbetween.
  destruct (document_binding _ _ _ _ _ _ _ _ _ _ H Hget Hti)
    as [[Hskip _]|[_ (specs & sti & s & ei & Hspecs & Hprei & Hs & Hei & Hnewi)]];
    [congruence|].
  destruct (document_binding _ _ _ _ _ _ _ _ _ _ H Hget Htj)
    as [[Hskip _]|[_ (specs' & stj & s0 & ej & Hspecs' & Hprej & Hs0 & Hej & Hnewj)]];
    [congruence|].
  rewrite Hspecs in Hspecs'. injection Hspecs' as <-.
  destruct (wrapTasks_at _ _ _ _ _ _ j Hprei Hji)
    as (stj0 & stj' & t' & Hprej' & Ht' & Hbody & Hpost).
  rewrite Hprej in Hprej'. injection Hprej' as <-.
  destruct (wrapTasks_frame _ _ _ _ _ _ Hprej) as [_ Hframe].
  rewrite Hframe in Ht' by (rewrite elem_of_seq; lia).
  simpl in Ht'. rewrite Htj in Ht'. injection Ht' as <-.
  destruct (wrapTask_Ok _ _ _ _ _ _ _ Huj Hbody)
    as (s1 & cur & e1 & Hs1 & Hcur & _ & Hnew' & Hstore).
  rewrite Hs0 in Hs1. injection Hs1 as <-.
  rewrite (wrapTasks_specs _ _ _ _ _ _ _ Hpost) in Hs.
  2:{ intros k tk Hk Htk. apply elem_of_seq in Hk.
      apply (Hbetween k); [lia|].
      rewrite Hnew', list_lookup_insert_ne in Htk by lia.
      rewrite Hframe in Htk by (rewrite elem_of_seq; lia). done. }
  rewrite Hstore, Hname, lookup_insert_eq in Hs. injection Hs as <-.
  eexists _, ej, ei. split; [exact Hnewj|].
  rewrite Hnewi. by rewrite wrappedSpec_later by lia.
Qed.

End Shapes.

(** ** The further properties at work on the sample clusters *)

Lemma occursIn_String sep c s :
  occursIn sep (String c s) → String.prefix sep (String c s) = true ∨ occursIn sep s.
Proof.
  intros ([|d a] & b & H).
  - left. change (String c s = sep +:+ b) in H. rewrite H. apply prefix_append.
  - right. change (String c s = String d (a +:+ sep +:+ b)) in H.
    injection H as _ ->. by exists a, b.
Qed.

Lemma occursIn_empty sep : occursIn sep EmptyString → sep = EmptyString.
Proof.
  intros ([|d a] & b & H); [|done].
  change (EmptyString = sep +:+ b) in H. by destruct sep.
Qed.

(** The parameter of the request wins over the configured default, and
    the default is taken when the request has none. *)
Lemma populate_wrapper_precedence_witness :
  goLookup (MapOf (<["wrapper" := "registry.local/wrapper:latest"]>
                     (Sample.paramsFor "simple-pipeline")))
           WrapperParam
    = match goLookup (MapOf (Sample.paramsFor "simple-pipeline")) WrapperParam with
      | Some v => Some v
      | None => ResolverConfig Sample.ctxWithDefault !! DefaultWrapperKey
      end
  ∧ ∀ k, k ≠ WrapperParam →
         goLookup (MapOf (<["wrapper" := "registry.local/wrapper:latest"]>
                            (Sample.paramsFor "simple-pipeline"))) k
         = goLookup (MapOf (Sample.paramsFor "simple-pipeline")) k.
Proof.
  apply (populate_wrapper_precedence (ResolverConfig Sample.ctxWithDefault)
           (MapOf (Sample.paramsFor "simple-pipeline"))).
  vm_compute. reflexivity.
Defined.

(** Populating the populated sample parameters changes nothing. *)
Lemma populate_idempotent_witness :
  populateParamsWithDefaults (ResolverConfig Sample.ctxWithDefault)
    (MapOf (<["wrapper" := "registry.local/wrapper:latest"]>
              (Sample.paramsFor "simple-pipeline")))
  = Ok (MapOf (<["wrapper" := "registry.local/wrapper:latest"]>
                 (Sample.paramsFor "simple-pipeline"))).
Proof.
  apply (populate_idempotent (ResolverConfig Sample.ctxWithDefault)
           (MapOf (Sample.paramsFor "simple-pipeline"))).
  vm_compute. reflexivity.
Defined.

(** A parameter the resolver does not know makes no difference. *)
Lemma Resolve_reads_three_parameters_witness :
  Resolve Sample.mountPath Sample.marshal elements Sample.resolver Sample.ctx
          (MapOf (Sample.paramsFor "simple-pipeline"))
  = Resolve Sample.mountPath Sample.marshal elements Sample.resolver Sample.ctx
            (MapOf (<["colour" := "blue"]> (Sample.paramsFor "simple-pipeline"))).
Proof.
  apply (Resolve_reads_three_parameters Sample.mountPath Sample.marshal elements
           Sample.resolver Sample.ctx);
    vm_compute; reflexivity.
Defined.

(** The sample request names the one workspace [sources]. *)
Lemma requested_single_witness :
  requested (MapOf (Sample.paramsFor "simple-pipeline"))
    = {[ goIndex (MapOf (Sample.paramsFor "simple-pipeline")) WorkspacesParam ]}
  ∧ (goLookup (MapOf (Sample.paramsFor "simple-pipeline")) WorkspacesParam = None →
     requested (MapOf (Sample.paramsFor "simple-pipeline")) = {[ EmptyString ]}).
Proof.
  apply (requested_single (MapOf (Sample.paramsFor "simple-pipeline"))).
  assert (goIndex (MapOf (Sample.paramsFor "simple-pipeline")) WorkspacesParam
          = "sources") as -> by (vm_compute; reflexivity).
  intros H.
  repeat (apply occursIn_String in H as [H|H]; [by vm_compute in H|]).
  by apply occursIn_empty in H.
Defined.

(** The task specs of [linted-pipeline] and their keys. *)
Lemma resolveTaskSpecs_entries_witness :
  (is_Some (Edge.lintedSpecs !! "lint")
   ↔ "lint" ∈ PipelineTask.Name <$> PipelineSpec.Tasks (Pipeline.Spec Sample.lintedPipeline))
  ∧ ∀ s, Edge.lintedSpecs !! "lint" = Some s →
         ∃ t, t ∈ PipelineSpec.Tasks (Pipeline.Spec Sample.lintedPipeline)
              ∧ PipelineTask.Name t = "lint"
              ∧ resolveTaskSpec Sample.resolver Sample.ctx t = Ok s.
Proof.
  apply (resolveTaskSpecs_entries Sample.resolver Sample.ctx
           (Pipeline.Spec Sample.lintedPipeline) Edge.lintedSpecs "lint").
  vm_compute. reflexivity.
Defined.

(** The binding [deploy] refers to [kubectl-apply], which the cluster has;
    the task is fetched as [deploy], which it has not. *)
Lemma Resolve_fetch_error_witness :
  Resolve Sample.mountPath Sample.marshal elements Edge.resolver Sample.ctx
          (MapOf (Sample.paramsFor "orphan-pipeline"))
  = Err (fetchError (PipelineTask.Name Edge.deploy) "not found").
Proof.
  apply (Resolve_fetch_error Sample.mountPath Sample.marshal elements Edge.resolver
           Sample.ctx (MapOf (Sample.paramsFor "orphan-pipeline"))
           (MapOf (Sample.paramsFor "orphan-pipeline")) Edge.orphanPipeline
           [Sample.grabSource] Edge.deploy [] (TaskRef.mk "kubectl-apply" "Task")).
  - vm_compute. reflexivity.
  - vm_compute. reflexivity.
  - reflexivity.
  - intros x Hx. apply list_elem_of_singleton in Hx as ->. eexists. vm_compute. reflexivity.
  - reflexivity.
  - vm_compute. reflexivity.
Defined.

(** The binding [bare] has neither reference nor template. *)
Lemma Resolve_panics_on_empty_binding_witness :
  Resolve Sample.mountPath Sample.marshal elements Edge.resolver Sample.ctx
          (MapOf (Sample.paramsFor "bare-pipeline"))
  = Panic nilDeref.
Proof.
  apply (Resolve_panics_on_empty_binding Sample.mountPath Sample.marshal elements
           Edge.resolver Sample.ctx (MapOf (Sample.paramsFor "bare-pipeline"))
           (MapOf (Sample.paramsFor "bare-pipeline")) Edge.barePipeline
           [Sample.grabSource] Edge.bare []).
  - vm_compute. reflexivity.
  - vm_compute. reflexivity.
  - reflexivity.
  - intros x Hx. apply list_elem_of_singleton in Hx as ->. eexists. vm_compute. reflexivity.
  - reflexivity.
  - reflexivity.
Defined.

(** The cluster has no pipeline of that name: the error is the one of the
    fetch. *)
Lemma Resolve_error_provenance_witness :
  ∃ params,
    populateParamsWithDefaults (ResolverConfig Sample.ctx)
      (MapOf (Sample.paramsFor "no-such-pipeline")) = Ok params
    ∧ (GetPipeline (pipelineClientSet Sample.resolver) (RequestNamespace Sample.ctx)
                   (goIndex params PipelineRefParam) = Failure "not found"
       ∨ ∃ pipeline,
           GetPipeline (pipelineClientSet Sample.resolver) (RequestNamespace Sample.ctx)
                       (goIndex params PipelineRefParam) = Success pipeline
           ∧ ((∃ t e, t ∈ tasksOf pipeline
                      ∧ is_Some (PipelineTask.TaskRef t)
                      ∧ GetTask (pipelineClientSet Sample.resolver)
                                (RequestNamespace Sample.ctx)
                                (PipelineTask.Name t) = Failure e
                      ∧ "not found" = fetchError (PipelineTask.Name t) e)
              ∨ ∃ doc, Resolve_newPipeline Sample.mountPath elements Sample.resolver
                         Sample.ctx (MapOf (Sample.paramsFor "no-such-pipeline"))
                       = Ok (params, doc)
                       ∧ Sample.marshal doc = Failure "not found")).
Proof.
  apply (Resolve_error_provenance Sample.mountPath Sample.marshal elements
           Sample.resolver Sample.ctx (MapOf (Sample.paramsFor "no-such-pipeline"))).
  vm_compute. reflexivity.
Defined.

(** The resource resolved for [simple-pipeline]. *)
Lemma Resolve_resource_witness :
  ∃ params pipeline doc,
    GetPipeline (pipelineClientSet Sample.resolver) (RequestNamespace Sample.ctx)
                (goIndex (MapOf (Sample.paramsFor "simple-pipeline")) PipelineRefParam)
      = Success pipeline
    ∧ Resolve_newPipeline Sample.mountPath elements Sample.resolver Sample.ctx
        (MapOf (Sample.paramsFor "simple-pipeline")) = Ok (params, doc)
    ∧ Sample.marshal doc = Success (Data Edge.simpleResource)
    ∧ Annotations Edge.simpleResource
      = {[ "PipelineRef" :=
             goIndex (MapOf (Sample.paramsFor "simple-pipeline")) PipelineRefParam ]}
    ∧ Pipeline.Kind doc = "Pipeline"
    ∧ Pipeline.APIVersion doc = "tekton.dev/v1beta1"
    ∧ Pipeline.Name doc = Pipeline.Name pipeline
    ∧ Pipeline.Namespace doc = Pipeline.Namespace pipeline
    ∧ PipelineSpec.setTasks (tasksOf pipeline) (Pipeline.Spec doc) = Pipeline.Spec pipeline.
Proof.
  apply (Resolve_resource Sample.mountPath Sample.marshal elements Sample.resolver
           Sample.ctx (MapOf (Sample.paramsFor "simple-pipeline")) Edge.simpleResource).
  vm_compute. reflexivity.
Defined.

(** No task of [linted-pipeline] uses the workspace [cache]. *)
Lemma unused_workspaces_change_nothing_witness :
  tasksOf Sample.lintedPipeline = tasksOf Sample.lintedPipeline
  ∧ Resolve_newPipeline Sample.mountPath elements Sample.resolver Sample.ctx
      (MapOf Edge.cacheParams)
    = Ok (MapOf Edge.cacheParams, Sample.lintedPipeline).
Proof.
  split; [|vm_compute; reflexivity].
  apply (unused_workspaces_change_nothing Sample.mountPath elements Sample.resolver
           Sample.ctx (MapOf Edge.cacheParams) (MapOf Edge.cacheParams)
           Sample.lintedPipeline Sample.lintedPipeline).
  - vm_compute. reflexivity.
  - vm_compute. reflexivity.
  - intros t Ht.
    repeat (apply elem_of_cons in Ht as [->|Ht]; [vm_compute; reflexivity|]).
    by apply elem_of_nil in Ht.
Defined.

(** The task [build] of [linted-pipeline], at index 1. *)
Lemma wrapped_task_shape_witness :
  ∃ s e,
    PipelineTask.TaskSpec Sample.build = Some e
    ∧ tasksOf Sample.lintedDocument !! 1 =
        Some (inlined
                (TaskSpec.setSteps
                   (if bool_decide (1 = 0)
                    then exportOnly Sample.mountPath
                           (requested (MapOf (Sample.paramsFor "linted-pipeline")))
                           (images elements (MapOf (Sample.paramsFor "linted-pipeline")))
                           s (PipelineTask.Workspaces Sample.build)
                    else importThenExport Sample.mountPath
                           (requested (MapOf (Sample.paramsFor "linted-pipeline")))
                           (images elements (MapOf (Sample.paramsFor "linted-pipeline")))
                           s (PipelineTask.Workspaces Sample.build))
                   s)
                e Sample.build).
Proof.
  apply (wrapped_task_shape Sample.mountPath elements Sample.resolver Sample.ctx
           (MapOf (Sample.paramsFor "linted-pipeline"))
           (MapOf (Sample.paramsFor "linted-pipeline")) Sample.lintedDocument
           Sample.lintedPipeline 1 Sample.build);
    vm_compute; reflexivity.
Defined.

(** The two tasks named [build] of [twins-pipeline], at indices 1 and 2. *)
Lemma same_name_tasks_share_template_witness :
  ∃ sj ej ei,
    tasksOf Edge.twinsDocument !! 1 = Some (inlined sj ej Sample.build)
    ∧ tasksOf Edge.twinsDocument !! 2 =
        Some (inlined
                (TaskSpec.setSteps
                   (importThenExport Sample.mountPath
                      (requested (MapOf (Sample.paramsFor "twins-pipeline")))
                      (images elements (MapOf (Sample.paramsFor "twins-pipeline")))
                      sj (PipelineTask.Workspaces Edge.buildAgain))
                   sj)
                ei Edge.buildAgain).
Proof.
  apply (same_name_tasks_share_template Sample.mountPath elements Edge.resolver
           Sample.ctx (MapOf (Sample.paramsFor "twins-pipeline"))
           (MapOf (Sample.paramsFor "twins-pipeline")) Edge.twinsDocument
           Edge.twinsPipeline 1 2 Sample.build Edge.buildAgain);
    first [ lia | (intros k tk Hk; lia) | (vm_compute; reflexivity) ].
Defined.

(** [linted-pipeline] meets the conditions: its bindings resolve, and
    those that use [sources] are inline. *)
Lemma Resolve_newPipeline_total_witness :
  ∃ doc,
    Resolve_newPipeline Sample.mountPath elements Sample.resolver Sample.ctx
      (MapOf (Sample.paramsFor "linted-pipeline"))
    = Ok (MapOf (Sample.paramsFor "linted-pipeline"), doc).
Proof.
  apply (Resolve_newPipeline_total Sample.mountPath elements Sample.resolver Sample.ctx
           (MapOf (Sample.paramsFor "linted-pipeline"))
           (MapOf (Sample.paramsFor "linted-pipeline")) Sample.lintedPipeline).
  - vm_compute. reflexivity.
  - vm_compute. reflexivity.
  - intros t Ht.
    repeat (apply elem_of_cons in Ht as [->|Ht]; [eexists; vm_compute; reflexivity|]).
    by apply elem_of_nil in Ht.
  - intros t Ht Hu.
    repeat (apply elem_of_cons in Ht as [->|Ht];
            [first [by vm_compute in Hu | (eexists; reflexivity)]|]).
    by apply elem_of_nil in Ht.
Defined.

(** [reference-pipeline]: its binding [build] is bound by reference and
    uses [sources]. *)
Lemma Resolve_panics_without_inline_template_witness :
  ∃ msg,
    Resolve Sample.mountPath Sample.marshal elements Sample.resolver Sample.ctx
            (MapOf (Sample.paramsFor "reference-pipeline"))
    = Panic msg.
Proof.
  apply (Resolve_panics_without_inline_template Sample.mountPath Sample.marshal elements
           Sample.resolver Sample.ctx (MapOf (Sample.paramsFor "reference-pipeline"))
           (MapOf (Sample.paramsFor "reference-pipeline")) Sample.referencePipeline
           Edge.referenceSpecs 1 Sample.buildByReference);
    vm_compute; reflexivity.
Defined.
